(** * rsync: block hashing, rolling checksum, differ and reconstructor

    A shallow embedding of [rsync.go] (package [rsync]) and the properties
    of its three entry points [CalculateBlockHashes], [CalculateDifferences]
    and [ApplyOps].

    Conventions of the embedding:
    - a Go [[]byte] is a [list byte]; where the capacity of the slice is
      observable (re-slicing past [len] in [ApplyOps]) the slice is a
      [gslice], the visible elements together with the rest of the backing
      array;
    - Go's [int] is a [Z], 64 bits wide where an arbitrary caller-supplied
      value is multiplied ([wrap_int]); [uint32] is a [Z] reduced by [u32]
      after every operation;
    - a run-time panic is [None] in the [option] monad;
    - the channel of [RSyncOp] is the list of the operations sent on it, in
      order, closed after the last one;
    - slice lengths stay far below 2^62, so cursors and lengths are not
      reduced; the slice expressions of [CalculateBlockHashes] and
      [CalculateDifferences] are checked against the length, which is
      stricter than Go's check against the capacity, and both functions are
      proved never to fail it. *)

From Stdlib Require Import ZArith Lia Strings.Byte.
From stdpp Require Import base option list gmap.

Local Open Scope Z_scope.

(** ** Machine integers and bytes *)

Module Go.

Definition u32 (z : Z) : Z := z mod 2 ^ 32.

(** Two's complement reduction of a mathematical integer to Go's [int]. *)
Definition wrap_int (z : Z) : Z := (z + 2 ^ 63) mod 2 ^ 64 - 2 ^ 63.

Definition byteZ (b : byte) : Z := Z.of_N (Byte.to_N b).

Definition byte_of_Z (z : Z) : byte :=
  match Byte.of_N (Z.to_N (z mod 256)) with
  | Some b => b
  | None => x00
  end.

Definition len {A} (l : list A) : Z := Z.of_nat (length l).

(** [s[i]] on a slice: panics outside [0 <= i < len(s)]. *)
Definition idx {A} (s : list A) (i : Z) : option A :=
  if decide (0 <= i) then s !! Z.to_nat i else None.

(** [s[lo:hi]] where the capacity of [s] equals its length. *)
Definition slice {A} (s : list A) (lo hi : Z) : option (list A) :=
  if decide (0 <= lo /\ lo <= hi /\ hi <= len s)
  then Some (take (Z.to_nat (hi - lo)) (drop (Z.to_nat lo) s))
  else None.

(** A slice whose backing array extends past its length: [vis] are the
    elements below [len], [room] the elements between [len] and [cap]. *)
Record gslice := GSlice { vis : list byte; room : list byte }.

Definition cap (s : gslice) : Z := len (vis s) + len (room s).

(** A slice with no spare capacity, as a composite literal or [make]
    of a length produces. *)
Definition exact (l : list byte) : gslice := GSlice l [].

(** [s[lo:hi]] on a slice of bytes: the upper bound is the capacity. *)
Definition reslice (s : gslice) (lo hi : Z) : option (list byte) :=
  if decide (0 <= lo /\ lo <= hi /\ hi <= cap s)
  then Some (take (Z.to_nat (hi - lo)) (drop (Z.to_nat lo) (vis s ++ room s)))
  else None.

(** [make([]byte, n)]: zeroed, capacity [n]; panics when [n] is negative. *)
Definition make (n : Z) : option (list byte) :=
  if decide (0 <= n) then Some (replicate (Z.to_nat n) x00) else None.

(** [copy(buf[at:at+room], src)] seen from [buf]: the first
    [min(room, len(src))] bytes of [src] overwrite [buf] from [at]. *)
Definition copy (buf : list byte) (at_ room_ : nat) (src : list byte) : list byte :=
  let n := Nat.min room_ (length src) in
  take at_ buf ++ take n src ++ drop (at_ + n) buf.

End Go.
Import Go.

(** ** crypto/md5 (RFC 1321), the digest behind [strongHash] *)

Module MD5.

Definition K : list Z :=
  [ 3614090360; 3905402710; 606105819; 3250441966;
    4118548399; 1200080426; 2821735955; 4249261313;
    1770035416; 2336552879; 4294925233; 2304563134;
    1804603682; 4254626195; 2792965006; 1236535329;
    4129170786; 3225465664; 643717713; 3921069994;
    3593408605; 38016083; 3634488961; 3889429448;
    568446438; 3275163606; 4107603335; 1163531501;
    2850285829; 4243563512; 1735328473; 2368359562;
    4294588738; 2272392833; 1839030562; 4259657740;
    2763975236; 1272893353; 4139469664; 3200236656;
    681279174; 3936430074; 3572445317; 76029189;
    3654602809; 3873151461; 530742520; 3299628645;
    4096336452; 1126891415; 2878612391; 4237533241;
    1700485571; 2399980690; 4293915773; 2240044497;
    1873313359; 4264355552; 2734768916; 1309151649;
    4149444226; 3174756917; 718787259; 3951481745 ].

Definition S : list Z :=
  [ 7; 12; 17; 22; 7; 12; 17; 22; 7; 12; 17; 22; 7; 12; 17; 22;
    5; 9; 14; 20; 5; 9; 14; 20; 5; 9; 14; 20; 5; 9; 14; 20;
    4; 11; 16; 23; 4; 11; 16; 23; 4; 11; 16; 23; 4; 11; 16; 23;
    6; 10; 15; 21; 6; 10; 15; 21; 6; 10; 15; 21; 6; 10; 15; 21 ].

Definition not32 (x : Z) : Z := 2 ^ 32 - 1 - x.

Definition rotl (x n : Z) : Z :=
  Z.lor (u32 (Z.shiftl x n)) (Z.shiftr x (32 - n)).

(** Little-endian bytes of a word, [n] of them. *)
Fixpoint le_bytes (n : nat) (w : Z) : list byte :=
  match n with
  | O => []
  | Datatypes.S n' => byte_of_Z w :: le_bytes n' (Z.shiftr w 8)
  end.

Fixpoint le_word (bs : list byte) : Z :=
  match bs with
  | [] => 0
  | b :: bs' => byteZ b + 256 * le_word bs'
  end.

(** The message followed by 0x80, zeroes up to 56 mod 64, and the bit
    length on 8 bytes. *)
Definition pad (msg : list byte) : list byte :=
  let n := length msg in
  let zeros := ((64 + 55 - n mod 64) mod 64)%nat in
  msg ++ x80 :: replicate zeros x00
      ++ le_bytes 8 ((8 * Z.of_nat n) mod 2 ^ 64).

Fixpoint chunks {A} (k : nat) (fuel : nat) (l : list A) : list (list A) :=
  match fuel with
  | O => []
  | Datatypes.S fuel' =>
      match l with
      | [] => []
      | _ => take k l :: chunks k fuel' (drop k l)
      end
  end.

Definition words (block : list byte) : list Z :=
  le_word <$> chunks 4 16 block.

Definition round (m : list Z) (st : Z * Z * Z * Z) (i : nat) : Z * Z * Z * Z :=
  let '(a, b, c, d) := st in
  let '(f, g) :=
    if decide (i < 16)%nat then
      (Z.lor (Z.land b c) (Z.land (not32 b) d), i)
    else if decide (i < 32)%nat then
      (Z.lor (Z.land d b) (Z.land (not32 d) c), ((5 * i + 1) mod 16)%nat)
    else if decide (i < 48)%nat then
      (Z.lxor (Z.lxor b c) d, ((3 * i + 5) mod 16)%nat)
    else
      (Z.lxor c (Z.lor b (not32 d)), ((7 * i) mod 16)%nat) in
  let f' := u32 (f + a + K !!! i + m !!! g) in
  (d, u32 (b + rotl f' (S !!! i)), b, c).

Definition block (h : Z * Z * Z * Z) (blk : list byte) : Z * Z * Z * Z :=
  let '(a0, b0, c0, d0) := h in
  let '(a, b, c, d) := foldl (round (words blk)) h (seq 0 64) in
  (u32 (a0 + a), u32 (b0 + b), u32 (c0 + c), u32 (d0 + d)).

Definition init : Z * Z * Z * Z :=
  (1732584193, 4023233417, 2562383102, 271733878).

Definition sum (msg : list byte) : list byte :=
  let p := pad msg in
  let '(a, b, c, d) := foldl block init (chunks 64 (length p) p) in
  le_bytes 4 a ++ le_bytes 4 b ++ le_bytes 4 c ++ le_bytes 4 d.

End MD5.

#[global] Instance byte_eq_dec : EqDecision byte.
Proof.
  intros a b. destruct (decide (Byte.to_N a = Byte.to_N b)) as [e | n].
  - left. apply (f_equal Byte.of_N) in e. rewrite !Byte.of_to_N in e. congruence.
  - right. congruence.
Defined.

(** ** rsync.go *)

(** [type BlockHash struct] (rsync.go:23-30) *)
Module BlockHash.
Record t := Make { index : Z; strongHash : list byte; weakHash : Z }.
End BlockHash.

(** [type RSyncOp struct] (rsync.go:45-52) *)
Module RSyncOp.
Record t := Make { opCode : Z; data : list byte; blockIndex : Z }.
End RSyncOp.

Module rsync.

(** The constants (rsync.go:14-20 and 36-41). *)
Definition BlockSize : Z := 2.
Definition M : Z := Z.shiftl 1 16.

Definition BLOCK : Z := 0.
Definition DATA : Z := 1.

(** The two composite literals of [CalculateDifferences]; the field left
    out of the literal has its zero value. *)
Definition op_block (i : Z) : RSyncOp.t := RSyncOp.Make BLOCK [] i.
Definition op_data (d : list byte) : RSyncOp.t := RSyncOp.Make DATA d 0.

(** [func min] (rsync.go:218-223) *)
Definition min (a b : Z) : Z := if decide (a < b) then a else b.

(** [func strongHash] (rsync.go:200-204): the MD5 digest of the block. *)
Definition strongHash (v : list byte) : list byte := MD5.sum v.

(** The body of the [for i := range v] of [weakHash], [n] being [len(v)]
    and [i] the index of the head of the remaining bytes. *)
Fixpoint weakHash_loop (n i : Z) (v : list byte) (a b : Z) : Z * Z :=
  match v with
  | [] => (a, b)
  | x :: v' =>
      let a' := u32 (a + u32 (byteZ x)) in
      let b' := u32 (b + u32 (u32 (u32 (u32 (n - 1) - u32 i) + 1) * u32 (byteZ x))) in
      weakHash_loop n (i + 1) v' a' b'
  end.

(** [func weakHash] (rsync.go:208-215). Returns [(weak, a, b)]; in Go
    [1 << 16 * x] is [(1 << 16) * x]. *)
Definition weakHash (v : list byte) : Z * Z * Z :=
  let '(a, b) := weakHash_loop (len v) 0 v 0 0 in
  (u32 (a mod M + u32 (Z.shiftl 1 16 * (b mod M))), a mod M, b mod M).

(** The rolling update written inline in [CalculateDifferences]
    (rsync.go:151-153):
    [removed] is [content[offset-1]], [added] is [content[endingByte-1]]
    and [wlen] is [endingByte-offset]. Returns [(weak, aweak, bweak)]. *)
Definition roll (aweak bweak : Z) (removed added : byte) (wlen : Z) : Z * Z * Z :=
  let aweak' := u32 (u32 (aweak - u32 (byteZ removed)) + u32 (byteZ added)) mod M in
  let bweak' := u32 (u32 (bweak - u32 (u32 wlen * u32 (byteZ removed))) + aweak') mod M in
  (u32 (aweak' + u32 (Z.shiftl 1 16 * bweak')), aweak', bweak').

(** [func getBlocksNumber] (rsync.go:79-85) *)
Definition getBlocksNumber (content : list byte) : Z :=
  let blockNumber := len content `quot` BlockSize in
  if decide (len content `rem` BlockSize <> 0) then blockNumber + 1 else blockNumber.

(** One turn of the loop of [CalculateBlockHashes] (rsync.go:61-72). *)
Definition blockHashAt (content : list byte) (i : Z) : option BlockHash.t :=
  let initialByte := i * BlockSize in
  let endingByte := min ((i + 1) * BlockSize) (len content) in
  block ← slice content initialByte endingByte;
  let '(weak, _, _) := weakHash block in
  Some (BlockHash.Make i (strongHash block) weak).

(** [func CalculateBlockHashes] (rsync.go:58-75); [make] panics on a
    negative length. *)
Definition CalculateBlockHashes (content : list byte) : option (list BlockHash.t) :=
  let n := getBlocksNumber content in
  if decide (0 <= n) then mapM (blockHashAt content) (seqZ 0 n) else None.

(** [func searchStrongHash] (rsync.go:190-197): [(true, &blockHash)] is
    [Some blockHash], [(false, nil)] is [None]. *)
Fixpoint searchStrongHash (l : list BlockHash.t) (hashValue : list byte)
  : option BlockHash.t :=
  match l with
  | [] => None
  | blockHash :: l' =>
      if decide (BlockHash.strongHash blockHash = hashValue) then Some blockHash
      else searchStrongHash l' hashValue
  end.

(** [hashesMap[key] = append(hashesMap[key], h)] (rsync.go:124-129); a key
    that is absent reads as the nil slice. *)
Definition add_hash (hashesMap : gmap Z (list BlockHash.t)) (h : BlockHash.t)
  : gmap Z (list BlockHash.t) :=
  let key := BlockHash.weakHash h in
  <[key := hashesMap !!! key ++ [h]]> hashesMap.

(** The local variables of [CalculateDifferences], and in [sent] the
    operations sent on [opsChannel] so far. *)
Record state := State {
  offset : Z; previousMatch : Z;
  aweak : Z; bweak : Z; weak : Z;
  dirty : bool; isRolling : bool;
  sent : list RSyncOp.t
}.

Definition start : state := State 0 0 0 0 0 false false [].

(** [endingByte := min(offset+BlockSize, len(content)-1)] (rsync.go:140) *)
Definition endingByte (content : list byte) (offset : Z) : Z :=
  min (offset + BlockSize) (len content - 1).

(** The window hashed at [offset]: [content[offset:endingByte]]
    (rsync.go:141). *)
Definition window (content : list byte) (offset : Z) : option (list byte) :=
  slice content offset (endingByte content offset).

(** One turn of [for offset < len(content)] (rsync.go:138-180): the
    window and its weak hash, recomputed or rolled; then a match, which
    sends the pending [DATA] and the [BLOCK], or a miss. *)
Definition iteration (content : list byte) (hashesMap : gmap Z (list BlockHash.t))
    (st : state) : option state :=
  let endingByte := endingByte content (offset st) in
  block ← window content (offset st);
  '(weak', aweak', bweak') ←
    (if negb (isRolling st) then Some (weakHash block)
     else
       removed ← idx content (offset st - 1);
       added ← idx content (endingByte - 1);
       Some (roll (aweak st) (bweak st) removed added (endingByte - offset st)));
  let miss :=
    Some (State (offset st + 1) (previousMatch st) aweak' bweak' weak' true true (sent st)) in
  match hashesMap !!! weak' with
  | [] => miss
  | l =>
      match searchStrongHash l (strongHash block) with
      | Some blockHash =>
          flushed ←
            (if dirty st then
               d ← slice content (previousMatch st) (offset st);
               Some (sent st ++ [op_data d])
             else Some (sent st));
          Some (State (offset st + BlockSize) endingByte aweak' bweak' weak' false false
                      (flushed ++ [op_block (BlockHash.index blockHash)]))
      | None => miss
      end
  end.

(** The loop; every turn advances [offset], so [len(content)] turns are
    enough (see [scan_terminates]). *)
Fixpoint scan (fuel : nat) (content : list byte)
    (hashesMap : gmap Z (list BlockHash.t)) (st : state) : option state :=
  if decide (offset st < len content) then
    match fuel with
    | O => None
    | S fuel' =>
        st' ← iteration content hashesMap st;
        scan fuel' content hashesMap st'
    end
  else Some st.

(** [func CalculateDifferences] (rsync.go:117-186); the result is what the
    channel has carried when it is closed. *)
Definition CalculateDifferences (content : list byte) (hashes : list BlockHash.t)
  : option (list RSyncOp.t) :=
  let hashesMap := foldl add_hash ∅ hashes in
  st ← scan (length content) content hashesMap start;
  if dirty st then
    d ← slice content (previousMatch st) (len content);
    Some (sent st ++ [op_data d])
  else Some (sent st).

(** [for op := range ops] of [ApplyOps] (rsync.go:97-108), with [result]
    and [offset] threaded through; an [opCode] that is neither [BLOCK] nor
    [DATA] falls through the [switch]. *)
Fixpoint apply (content : gslice) (ops : list RSyncOp.t)
    (result : list byte) (offset : Z) : option (list byte) :=
  match ops with
  | [] => Some result
  | op :: ops' =>
      if decide (RSyncOp.opCode op = BLOCK) then
        dst ← slice result offset (offset + BlockSize);
        let lo := wrap_int (RSyncOp.blockIndex op * BlockSize) in
        src ← reslice content lo (wrap_int (lo + BlockSize));
        apply content ops' (copy result (Z.to_nat offset) (length dst) src)
              (offset + BlockSize)
      else if decide (RSyncOp.opCode op = DATA) then
        dst ← slice result offset (len result);
        apply content ops' (copy result (Z.to_nat offset) (length dst) (RSyncOp.data op))
              (offset + len (RSyncOp.data op))
      else apply content ops' result offset
  end.

(** [func ApplyOps] (rsync.go:92-110) *)
Definition ApplyOps (content : gslice) (ops : list RSyncOp.t) (fileSize : Z)
  : option (list byte) :=
  result ← make fileSize;
  apply content ops result 0.

End rsync.
Import rsync.

(** ** Specification-level checksums

    The two half-checksums as the design states them: [sum_a] is the sum of
    the byte values and [sum_b] the sum of the byte values weighted by their
    distance to the end of the window, [windowLength - i] for the byte at
    position [i]. *)

Fixpoint sum_a (v : list byte) : Z :=
  match v with
  | [] => 0
  | x :: v' => byteZ x + sum_a v'
  end.

Fixpoint sum_b (v : list byte) : Z :=
  match v with
  | [] => 0
  | x :: v' => len v * byteZ x + sum_b v'
  end.

(** Congruence modulo [M], the relation in which the [uint32] wrap-around
    of the code disappears. *)
Definition eqM (x y : Z) : Prop := x mod M = y mod M.

(** The bytes the operations of a stream carry or stand for, counting a
    [BLOCK] for [BlockSize] bytes. *)
Definition contributed (op : RSyncOp.t) : Z :=
  if decide (RSyncOp.opCode op = BLOCK) then BlockSize
  else if decide (RSyncOp.opCode op = DATA) then len (RSyncOp.data op)
  else 0.

(** The content of the repository's [Test_WeakHash]. *)
Definition fixture : list byte := [x00; x01; x02; x03; x04; x05; x06; x07; x08; x09].

(** A [DATA] operation carries at least one byte. *)
Definition data_nonempty (op : RSyncOp.t) : Prop :=
  RSyncOp.opCode op = DATA -> RSyncOp.data op <> [].

(** The states of [CalculateDifferences] at the head of its loop. *)
Inductive reachable (content : list byte) (hashesMap : gmap Z (list BlockHash.t))
  : state -> Prop :=
| reach_start : reachable content hashesMap start
| reach_turn st st' :
    reachable content hashesMap st ->
    offset st < len content ->
    iteration content hashesMap st = Some st' ->
    reachable content hashesMap st'.

(** What holds of the differ's variables at the head of every turn. *)
Record scan_inv (content : list byte) (st : state) : Prop := ScanInv {
  inv_match : 0 <= previousMatch st <= offset st;
  inv_match_len : previousMatch st <= len content;
  inv_dirty : dirty st = true -> previousMatch st < offset st <= len content;
  inv_rolling : isRolling st = true -> 1 <= offset st;
  inv_sent : Forall data_nonempty (sent st)
}.

(** The candidate the design asks for: among the entries of the hash list
    with weak hash [w], in the order of the list, the first whose strong
    hash is [s]. *)
Definition first_match (hashes : list BlockHash.t) (w : Z) (s : list byte)
  : option BlockHash.t :=
  head (filter (λ h, BlockHash.strongHash h = s)
          (filter (λ h, BlockHash.weakHash h = w) hashes)).

(** The total over a stream. *)
Definition bytes_contributed (ops : list RSyncOp.t) : Z :=
  foldr Z.add 0 (contributed <$> ops).

(** The blocks [CalculateBlockHashes] numbers: [0 <= i < getBlocksNumber]. *)
Definition valid_block (content : list byte) (i : Z) : Prop :=
  0 <= i < getBlocksNumber content.

(** The only check a [BLOCK] operation meets in [ApplyOps]: the bounds of
    the slice expression [content[i*BlockSize : i*BlockSize+BlockSize]],
    taken in [int] arithmetic against the capacity of [content]. *)
Definition source_in_capacity (content : gslice) (i : Z) : Prop :=
  let lo := wrap_int (i * BlockSize) in
  0 <= lo /\ lo <= wrap_int (lo + BlockSize) /\ wrap_int (lo + BlockSize) <= cap content.

(** The pipeline of the repository's tests: hash the receiver's content,
    diff the sender's content against the hashes, rebuild on the receiver. *)
Definition round_trip (original : gslice) (modified : list byte) : option (list byte) :=
  hashes ← CalculateBlockHashes (vis original);
  ops ← CalculateDifferences modified hashes;
  ApplyOps original ops (len modified).

(** The operation stream for a target equal to the reference content. *)
Definition identity_ops (content : list byte) : option (list RSyncOp.t) :=
  hashes ← CalculateBlockHashes content;
  CalculateDifferences content hashes.

(** The two texts of [Test_Result], as the comments of the test list them. *)
Definition text_original : list byte :=
  [x73; x6f; x6d; x65; x20; x74; x65; x78; x74; x0d; x0a].
Definition text_modified : list byte :=
  [x73; x6f; x6d; x65; x20; x65; x78; x74; x72; x61; x20; x74; x65; x78; x74; x0d; x0a].

(** ** Definitions for the further properties *)

(** The bytes of block [i] of a content: [BlockSize] of them from
    [i*BlockSize] on, or what is left of the content. *)
Definition nth_block (content : list byte) (i : nat) : list byte :=
  take (Z.to_nat BlockSize) (drop (i * Z.to_nat BlockSize) content).

(** The bytes an operation writes in [ApplyOps] when its slices are in
    bounds: the [BlockSize] bytes of the backing array at
    [blockIndex*BlockSize] for a [BLOCK], the literal bytes for a [DATA],
    nothing for any other [opCode]. *)
Definition expansion (content : gslice) (op : RSyncOp.t) : list byte :=
  if decide (RSyncOp.opCode op = BLOCK) then
    let lo := wrap_int (RSyncOp.blockIndex op * BlockSize) in
    default [] (reslice content lo (wrap_int (lo + BlockSize)))
  else if decide (RSyncOp.opCode op = DATA) then RSyncOp.data op
  else [].

(** An operation [ApplyOps] acts on. *)
Definition known_op (op : RSyncOp.t) : Prop :=
  RSyncOp.opCode op = BLOCK \/ RSyncOp.opCode op = DATA.

(** The stream read back against the target it was cut from: a [DATA]
    operation must carry the bytes of the target at the cursor, a [BLOCK]
    operation stands for the window the differ hashes at the cursor.
    Returns the cursor after the last operation. *)
Fixpoint replay (content : list byte) (ops : list RSyncOp.t) (cursor : Z) : option Z :=
  match ops with
  | [] => Some cursor
  | op :: ops' =>
      if decide (RSyncOp.opCode op = BLOCK) then
        replay content ops' (endingByte content cursor)
      else if decide (slice content cursor (cursor + len (RSyncOp.data op))
                      = Some (RSyncOp.data op)) then
        replay content ops' (cursor + len (RSyncOp.data op))
      else None
  end.

(** Every strong-hash match between a window of the target and an entry of
    the hash list is genuine: the bytes [ApplyOps] reads in the reference
    for that entry are the bytes of the window. *)
Definition genuine_matches (original : gslice) (modified : list byte)
    (hashes : list BlockHash.t) : Prop :=
  forall h o w,
    h ∈ hashes -> window modified o = Some w ->
    BlockHash.strongHash h = strongHash w ->
    let lo := wrap_int (BlockHash.index h * BlockSize) in
    reslice original lo (wrap_int (lo + BlockSize)) = Some w.

(** In a stream, every [DATA] operation that has a successor is followed
    by a [BLOCK] operation. *)
Definition data_then_block (ops : list RSyncOp.t) : Prop :=
  forall (i : nat) a b, ops !! i = Some a -> ops !! S i = Some b ->
    RSyncOp.opCode a = DATA -> RSyncOp.opCode b = BLOCK.

#[global] Instance known_op_dec (op : RSyncOp.t) : Decision (known_op op).
Proof. unfold known_op. apply _. Defined.

(** The stream [CalculateDifferences] cuts for the two texts of
    [Test_Result], and the hash list of the first. *)
Definition text_ops : list RSyncOp.t :=
  [op_block 0; op_block 1; op_data [x20]; op_block 3;
   op_data [x74; x72; x61]; op_block 2; op_block 3; op_block 4;
   op_data [x0a]].

Definition text_hashes : list BlockHash.t :=
  (λ i, BlockHash.Make (Z.of_nat i) (strongHash (nth_block text_original i))
                       (weakHash (nth_block text_original i)).1.1) <$> seq 0 6.

(** While the previous window had full length, the hash carried by a
    rolling state is the hash of that window. *)
Definition carries_previous_hash (content : list byte) (st : state) : Prop :=
  isRolling st = true -> offset st + 1 <= len content - 1 ->
  forall w0, slice content (offset st - 1) (offset st + 1) = Some w0 ->
    (weak st, aweak st, bweak st) = weakHash w0.

(** Runs through what follows the hashing in [iteration], whichever way
    the turn ends. *)
Ltac finish_turn Hit :=
  cbn [mbind option_bind] in Hit;
  repeat (match type of Hit with
          | context [match ?x with _ => _ end] => destruct x
          | context [mbind _ ?o] => destruct o
          end; cbn [mbind option_bind] in Hit);
  try discriminate Hit; simplify_eq; reflexivity.

(** ** Modular arithmetic *)

#[global] Instance eqM_equiv : Equivalence eqM.
Proof.
  unfold eqM. split.
  - intros x. reflexivity.
  - intros x y H. symmetry. exact H.
  - intros x y z H1 H2. congruence.
Qed.

#[global] Instance eqM_add : Proper (eqM ==> eqM ==> eqM) Z.add.
Proof.
  unfold eqM. intros x x' Hx y y' Hy.
  rewrite (Z.add_mod x y), (Z.add_mod x' y') by discriminate.
  rewrite Hx, Hy. reflexivity.
Qed.

#[global] Instance eqM_sub : Proper (eqM ==> eqM ==> eqM) Z.sub.
Proof.
  unfold eqM. intros x x' Hx y y' Hy.
  rewrite (Zminus_mod x y), (Zminus_mod x' y').
  rewrite Hx, Hy. reflexivity.
Qed.

#[global] Instance eqM_mul : Proper (eqM ==> eqM ==> eqM) Z.mul.
Proof.
  unfold eqM. intros x x' Hx y y' Hy.
  rewrite (Z.mul_mod x y), (Z.mul_mod x' y') by discriminate.
  rewrite Hx, Hy. reflexivity.
Qed.

Lemma eqM_u32 (z : Z) : eqM (u32 z) z.
Proof.
  unfold eqM, u32. apply Z.mod_mod_divide. exists (2 ^ 16). reflexivity.
Qed.

Lemma eqM_mod (z : Z) : eqM (z mod M) z.
Proof. unfold eqM. apply Z.mod_mod. discriminate. Qed.

Lemma mod_M_range (z : Z) : 0 <= z mod M < 65536.
Proof. apply (Z.mod_pos_bound z M). reflexivity. Qed.

(** Recomposing two reduced halves never overflows a [uint32]. *)
Lemma compose_exact (a b : Z) :
  u32 (a mod M + u32 (Z.shiftl 1 16 * (b mod M))) = a mod M + 65536 * (b mod M).
Proof.
  pose proof (mod_M_range a). pose proof (mod_M_range b).
  change (Z.shiftl 1 16) with 65536. unfold u32.
  rewrite (Z.mod_small (65536 * _)) by (change (2 ^ 32) with 4294967296; lia).
  apply Z.mod_small. change (2 ^ 32) with 4294967296. lia.
Qed.

(** ** The weak hash *)

Lemma len_cons {A} (x : A) (l : list A) : len (x :: l) = len l + 1.
Proof. unfold len. cbn [length]. lia. Qed.

Lemma len_app {A} (l k : list A) : len (l ++ k) = len l + len k.
Proof. unfold len. rewrite length_app. lia. Qed.

Lemma len_nonneg {A} (l : list A) : 0 <= len l.
Proof. unfold len. lia. Qed.

Lemma weakHash_loop_sums (v : list byte) :
  forall n i a b, n = i + len v ->
    eqM (weakHash_loop n i v a b).1 (a + sum_a v) /\
    eqM (weakHash_loop n i v a b).2 (b + sum_b v).
Proof.
  induction v as [| x v IH]; intros n i a b Hn; cbn [weakHash_loop sum_a sum_b].
  - rewrite !Z.add_0_r. split; reflexivity.
  - rewrite len_cons in Hn |- *.
    destruct (IH n (i + 1)
                (u32 (a + u32 (byteZ x)))
                (u32 (b + u32 (u32 (u32 (u32 (n - 1) - u32 i) + 1) * u32 (byteZ x)))))
      as [Ha Hb]; [lia |].
    split.
    + rewrite Ha, !eqM_u32. unfold eqM. f_equal. lia.
    + rewrite Hb, !eqM_u32. unfold eqM. f_equal. lia.
Qed.

(** [weakHash] computes the two sums of the design, reduced modulo [M],
    and packs them as [a + 2^16 * b]. *)
Lemma weakHash_sums (v : list byte) :
  weakHash v = (sum_a v mod M + 65536 * (sum_b v mod M), sum_a v mod M, sum_b v mod M).
Proof.
  unfold weakHash.
  destruct (weakHash_loop_sums v (len v) 0 0 0) as [Ha Hb]; [lia |].
  destruct (weakHash_loop (len v) 0 v 0 0) as [a b]. cbn [fst snd] in Ha, Hb.
  rewrite compose_exact. unfold eqM in Ha, Hb. rewrite Z.add_0_l in Ha, Hb.
  rewrite Ha, Hb. reflexivity.
Qed.

(** The roll step is the formula of the design: the wrap-around of the
    [uint32] subtraction is absorbed by the reduction modulo [M]. *)
Lemma roll_formula (a b : Z) (removed added : byte) (wlen : Z) :
  roll a b removed added wlen =
    let a' := (a - byteZ removed + byteZ added) mod M in
    let b' := (b - wlen * byteZ removed + a') mod M in
    (a' + 65536 * b', a', b').
Proof.
  unfold roll. cbv zeta.
  assert (Ha : u32 (u32 (a - u32 (byteZ removed)) + u32 (byteZ added)) mod M
               = (a - byteZ removed + byteZ added) mod M).
  { change (eqM (u32 (u32 (a - u32 (byteZ removed)) + u32 (byteZ added)))
                (a - byteZ removed + byteZ added)).
    rewrite !eqM_u32. reflexivity. }
  rewrite Ha.
  assert (Hb : u32 (u32 (b - u32 (u32 wlen * u32 (byteZ removed)))
                    + (a - byteZ removed + byteZ added) mod M) mod M
               = (b - wlen * byteZ removed + (a - byteZ removed + byteZ added) mod M) mod M).
  { change (eqM (u32 (u32 (b - u32 (u32 wlen * u32 (byteZ removed)))
                      + (a - byteZ removed + byteZ added) mod M))
                (b - wlen * byteZ removed + (a - byteZ removed + byteZ added) mod M)).
    rewrite !eqM_u32. reflexivity. }
  rewrite Hb, compose_exact. reflexivity.
Qed.

Lemma sum_a_snoc (v : list byte) (y : byte) : sum_a (v ++ [y]) = sum_a v + byteZ y.
Proof. induction v as [| x v IH]; cbn [app sum_a]; lia. Qed.

(** Appending a byte raises the weight of every earlier byte by one. *)
Lemma sum_b_snoc (v : list byte) (y : byte) :
  sum_b (v ++ [y]) = sum_b v + sum_a v + byteZ y.
Proof.
  induction v as [| x v IH].
  - cbn [app sum_b sum_a]. change (len [y]) with 1. lia.
  - change ((x :: v) ++ [y]) with (x :: (v ++ [y])).
    cbn [sum_b sum_a]. rewrite IH, !len_cons, len_app.
    change (len [y]) with 1. lia.
Qed.

(** Sliding a window one byte to the right: [x] leaves, [y] enters. *)
Lemma roll_slides (x y : byte) (v : list byte) :
  let '(_, a, b) := weakHash (x :: v) in
  roll a b x y (len (x :: v)) = weakHash (v ++ [y]).
Proof.
  rewrite !weakHash_sums, roll_formula. cbv zeta.
  assert (Ha : (sum_a (x :: v) mod M - byteZ x + byteZ y) mod M = sum_a (v ++ [y]) mod M).
  { change (eqM (sum_a (x :: v) mod M - byteZ x + byteZ y) (sum_a (v ++ [y]))).
    rewrite eqM_mod, sum_a_snoc. cbn [sum_a]. unfold eqM. f_equal. lia. }
  rewrite Ha.
  assert (Hb : (sum_b (x :: v) mod M - len (x :: v) * byteZ x + sum_a (v ++ [y]) mod M) mod M
               = sum_b (v ++ [y]) mod M).
  { change (eqM (sum_b (x :: v) mod M - len (x :: v) * byteZ x + sum_a (v ++ [y]) mod M)
                (sum_b (v ++ [y]))).
    rewrite !eqM_mod, sum_b_snoc, sum_a_snoc. cbn [sum_b]. unfold eqM. f_equal. lia. }
  rewrite Hb. reflexivity.
Qed.

(** ** Slices *)

Lemma slice_Some {A} (s : list A) (lo hi : Z) (w : list A) :
  slice s lo hi = Some w ->
  0 <= lo /\ lo <= hi /\ hi <= len s /\
  w = take (Z.to_nat (hi - lo)) (drop (Z.to_nat lo) s).
Proof. unfold slice. case_decide; [| discriminate]. intros [= <-]. tauto. Qed.

Lemma slice_in_range {A} (s : list A) (lo hi : Z) :
  0 <= lo -> lo <= hi -> hi <= len s ->
  slice s lo hi = Some (take (Z.to_nat (hi - lo)) (drop (Z.to_nat lo) s)).
Proof. intros. unfold slice. case_decide; [reflexivity | lia]. Qed.

Lemma slice_len {A} (s : list A) (lo hi : Z) (w : list A) :
  slice s lo hi = Some w -> len w = hi - lo.
Proof.
  intros H. apply slice_Some in H as (H1 & H2 & H3 & ->).
  unfold len in *. rewrite length_take, length_drop. lia.
Qed.

Lemma idx_Some {A} (s : list A) (i : Z) (x : A) :
  idx s i = Some x -> 0 <= i < len s /\ s !! Z.to_nat i = Some x.
Proof.
  unfold idx. case_decide; [| discriminate]. intros H'.
  pose proof (lookup_lt_Some _ _ _ H'). unfold len. split; [lia | exact H'].
Qed.

Lemma idx_in_range {A} (s : list A) (i : Z) :
  0 <= i < len s -> is_Some (idx s i).
Proof.
  intros H. unfold idx. case_decide; [| lia].
  apply lookup_lt_is_Some. unfold len in H. lia.
Qed.

(** A window of positive length and its right neighbour share all bytes
    but the first of the one and the last of the other. *)
Lemma adjacent_windows (content : list byte) (offset L : Z) (w1 w2 : list byte)
    (removed added : byte) :
  0 < L ->
  slice content offset (offset + L) = Some w1 ->
  slice content (offset + 1) (offset + 1 + L) = Some w2 ->
  idx content offset = Some removed ->
  idx content (offset + L) = Some added ->
  exists mid, w1 = removed :: mid /\ w2 = mid ++ [added] /\ len w1 = L.
Proof.
  intros HL H1 H2 Hr Ha.
  pose proof (slice_len _ _ _ _ H1) as Hlen.
  apply slice_Some in H1 as (? & ? & ? & ->).
  apply slice_Some in H2 as (? & ? & ? & ->).
  apply idx_Some in Hr as [_ Hr]. apply idx_Some in Ha as [_ Ha].
  replace (offset + L - offset) with L in * by lia.
  replace (offset + 1 + L - (offset + 1)) with L by lia.
  destruct (Z.to_nat L) as [| l] eqn:El; [lia |].
  replace (Z.to_nat (offset + 1)) with (S (Z.to_nat offset)) by lia.
  exists (take l (drop (S (Z.to_nat offset)) content)). split; [| split].
  - rewrite (drop_S _ _ _ Hr). reflexivity.
  - apply take_S_r. rewrite lookup_drop.
    replace (S (Z.to_nat offset) + l)%nat with (Z.to_nat (offset + L)) by lia.
    exact Ha.
  - lia.
Qed.

(** ** C7: rolling equivalence *)

(** C7. For every buffer and every offset at which the window
    [content[offset:offset+L]] and its right neighbour
    [content[offset+1:offset+1+L]] are both in bounds, one roll step applied
    to the half-checksums [(a, b)] that [weakHash] computes for the first
    window, with the byte leaving and the byte entering, gives exactly what
    [weakHash] computes from scratch for the neighbour: the weak hash and
    both halves. The step is newA = (a - removed + added) mod M,
    newB = (b - L * removed + newA) mod M and weak = newA + 2^16 * newB,
    with M = 65536. *)
Theorem rolling_equivalence (content : list byte) (offset L : Z) (w1 w2 : list byte)
    (removed added : byte) :
  slice content offset (offset + L) = Some w1 ->
  slice content (offset + 1) (offset + 1 + L) = Some w2 ->
  idx content offset = Some removed ->
  idx content (offset + L) = Some added ->
  let '(_, a, b) := weakHash w1 in
  roll a b removed added L = weakHash w2 /\
  roll a b removed added L
  = (let newA := (a - byteZ removed + byteZ added) mod 65536 in
     let newB := (b - L * byteZ removed + newA) mod 65536 in
     (newA + 2 ^ 16 * newB, newA, newB)).
Proof.
  intros H1 H2 Hr Ha.
  cut (let '(_, a, b) := weakHash w1 in roll a b removed added L = weakHash w2).
  { destruct (weakHash w1) as [[w a] b]. intros H'. split; [exact H' |].
    apply roll_formula. }
  destruct (decide (0 < L)) as [HL | HL].
  - destruct (adjacent_windows _ _ _ _ _ _ _ HL H1 H2 Hr Ha) as (mid & -> & -> & <-).
    apply roll_slides.
  - pose proof (slice_len _ _ _ _ H1) as Hl1. pose proof (slice_len _ _ _ _ H2) as Hl2.
    assert (L = 0) as -> by (pose proof (len_nonneg w1); lia).
    destruct w1; [| rewrite len_cons in Hl1; pose proof (len_nonneg w1); lia].
    destruct w2; [| rewrite len_cons in Hl2; pose proof (len_nonneg w2); lia].
    rewrite Z.add_0_r in Ha. assert (removed = added) as -> by congruence.
    rewrite weakHash_sums, roll_formula. cbn [sum_a sum_b]. cbv zeta.
    replace (0 mod M - byteZ added + byteZ added) with 0 by (change (0 mod M) with 0; lia).
    reflexivity.
Qed.

(** The code's own use of the step: the window after a miss at [offset - 1]
    with both windows of full length. *)
Lemma rolling_equivalence_witness :
  slice [x0a; x14; x1e; x28] 0 (0 + 2) = Some [x0a; x14] /\
  slice [x0a; x14; x1e; x28] (0 + 1) (0 + 1 + 2) = Some [x14; x1e] /\
  idx [x0a; x14; x1e; x28] 0 = Some x0a /\
  idx [x0a; x14; x1e; x28] (0 + 2) = Some x1e /\
  roll 30 40 x0a x1e 2 = weakHash [x14; x1e].
Proof.
  repeat (split; [reflexivity |]).
  exact (proj1 (rolling_equivalence [x0a; x14; x1e; x28] 0 2 [x0a; x14] [x14; x1e]
                  x0a x1e eq_refl eq_refl eq_refl eq_refl)).
Defined.

(** Where the two windows differ in length the step does not apply: at
    the tail the loop rolls from a window of two bytes to a window of one,
    and the rolled value, taken in the content [[9, 5, 8]] at offset 1, is
    not the hash of the window [[5]]. *)
Example roll_into_shorter_window :
  window [x09; x05; x08] 0 = Some [x09; x05] /\
  window [x09; x05; x08] 1 = Some [x05] /\
  weakHash [x09; x05] = (23 * 65536 + 14, 14, 23) /\
  roll 14 23 x09 x05 1 = (24 * 65536 + 10, 10, 24) /\
  weakHash [x05] = (5 * 65536 + 5, 5, 5).
Proof. vm_compute. repeat split; reflexivity. Qed.

(** ** C8: the checksum fixture *)

(** C8. On the ten bytes 0, 1, ..., 9 [weakHash] returns weak = 10813485,
    a = 45 and b = 165; 45 is the sum of the bytes, 165 the sum of the bytes
    weighted by [windowLength - i], both reduced modulo 65536, and the weak
    hash carries a in its low and b in its high 16 bits. *)
Theorem weakHash_fixture :
  weakHash fixture = (10813485, 45, 165) /\
  sum_a fixture mod 65536 = 45 /\
  sum_b fixture mod 65536 = 165 /\
  Z.land 10813485 (2 ^ 16 - 1) = 45 /\
  Z.shiftr 10813485 16 = 165 /\
  0 <= 10813485 < 2 ^ 32.
Proof. vm_compute. repeat split; congruence. Qed.

(** ** The block hasher *)

Lemma getBlocksNumber_range (content : list byte) (i : Z) :
  0 <= getBlocksNumber content /\
  (0 <= i < getBlocksNumber content -> i * BlockSize < len content).
Proof.
  unfold getBlocksNumber, BlockSize. pose proof (len_nonneg content).
  rewrite Z.rem_mod_nonneg, Z.quot_div_nonneg by lia.
  pose proof (Z.div_mod (len content) 2 ltac:(lia)).
  pose proof (Z.mod_pos_bound (len content) 2 ltac:(lia)).
  case_decide; split; lia.
Qed.

(** [CalculateBlockHashes] returns, with one hash per block, each taken
    over the block's own bytes: [BlockSize] of them, or what is left of the
    content for the last block. *)
Lemma CalculateBlockHashes_returns (content : list byte) :
  exists hashes, CalculateBlockHashes content = Some hashes /\
    len hashes = getBlocksNumber content /\
    forall (i : nat) h, hashes !! i = Some h ->
      exists block,
        slice content (Z.of_nat i * BlockSize)
              (Z.min ((Z.of_nat i + 1) * BlockSize) (len content)) = Some block /\
        1 <= len block /\
        h = BlockHash.Make (Z.of_nat i) (strongHash block) (weakHash block).1.1.
Proof.
  unfold CalculateBlockHashes.
  destruct (getBlocksNumber_range content 0) as [Hn _].
  rewrite decide_True by exact Hn.
  assert (Hall : forall x, 0 <= x < getBlocksNumber content ->
            exists block,
              slice content (x * BlockSize) (Z.min ((x + 1) * BlockSize) (len content))
                = Some block /\
              1 <= len block /\
              blockHashAt content x
                = Some (BlockHash.Make x (strongHash block) (weakHash block).1.1)).
  { intros x Hx. destruct (getBlocksNumber_range content x) as [_ Hlt].
    specialize (Hlt Hx). unfold blockHashAt.
    replace (rsync.min ((x + 1) * BlockSize) (len content))
      with (Z.min ((x + 1) * BlockSize) (len content))
      by (unfold rsync.min; case_decide; lia).
    unfold BlockSize in *. rewrite slice_in_range by lia.
    eexists. split; [reflexivity |]. split.
    - unfold len in *. rewrite length_take, length_drop. lia.
    - cbn [mbind option_bind]. destruct (weakHash _) as [[w a] b]. reflexivity. }
  destruct (mapM_is_Some_2 (blockHashAt content) (seqZ 0 (getBlocksNumber content)))
    as [hashes E].
  { apply Forall_forall. intros x Hx. apply elem_of_seqZ in Hx.
    destruct (Hall x) as (block & _ & _ & Hb); [lia |].
    unfold compose. rewrite Hb. eauto. }
  exists hashes. split; [exact E |]. split.
  - apply length_mapM in E. rewrite length_seqZ in E. unfold len. lia.
  - intros i h Hi. apply mapM_Some_1 in E.
    destruct (Forall2_lookup_r _ _ _ _ _ E Hi) as (x & Hx & Hf).
    apply lookup_seqZ in Hx as [-> Hlt]. rewrite Z.add_0_l in Hf.
    destruct (Hall (Z.of_nat i)) as (block & Hs & Hl & Hb); [lia |].
    exists block. split; [exact Hs |]. split; [exact Hl | congruence].
Qed.

(** ** The scan loop *)

Arguments strongHash : simpl never.
Arguments weakHash : simpl never.
Arguments roll : simpl never.

Lemma min_le_l (a b : Z) : rsync.min a b <= a.
Proof. unfold rsync.min. case_decide; lia. Qed.

Lemma min_le_r (a b : Z) : rsync.min a b <= b.
Proof. unfold rsync.min. case_decide; lia. Qed.

Lemma min_glb (a b c : Z) : c <= a -> c <= b -> c <= rsync.min a b.
Proof. unfold rsync.min. case_decide; lia. Qed.

(** Inside the loop the window is a legal slice, and it stops one byte
    short of the end of the content. *)
Lemma window_in_loop (content : list byte) (o : Z) :
  0 <= o < len content ->
  exists block, window content o = Some block /\
    o <= endingByte content o <= len content - 1 /\
    len block = endingByte content o - o.
Proof.
  intros Ho. unfold window.
  assert (o <= endingByte content o <= len content - 1) as He.
  { unfold endingByte, BlockSize. split; [apply min_glb; lia | apply min_le_r]. }
  rewrite slice_in_range by lia. eexists. split; [reflexivity |]. split; [exact He |].
  unfold len in *. rewrite length_take, length_drop. lia.
Qed.

(** The two ways a turn of the loop ends: a miss moves one byte on and
    marks the state dirty; a match sends the pending literal bytes, if any,
    then the block, and jumps [BlockSize] bytes. *)
Lemma iteration_cases (content : list byte) (hashesMap : gmap Z (list BlockHash.t))
    (st : state) :
  scan_inv content st -> offset st < len content ->
  exists block w a b,
    window content (offset st) = Some block /\
    (iteration content hashesMap st
       = Some (State (offset st + 1) (previousMatch st) a b w true true (sent st))
     /\ searchStrongHash (hashesMap !!! w) (strongHash block) = None
     \/
     exists blockHash flushed,
       searchStrongHash (hashesMap !!! w) (strongHash block) = Some blockHash /\
       (dirty st = false /\ flushed = sent st
        \/ exists d, dirty st = true /\
             slice content (previousMatch st) (offset st) = Some d /\
             flushed = sent st ++ [op_data d]) /\
       iteration content hashesMap st
         = Some (State (offset st + BlockSize) (endingByte content (offset st)) a b w
                       false false (flushed ++ [op_block (BlockHash.index blockHash)]))).
Proof.
  intros HI Hlt. destruct HI as [Hm Hml Hd Hr Hs].
  destruct (window_in_loop content (offset st)) as (block & Hw & He & Hbl); [lia |].
  unfold iteration. rewrite Hw. cbn [mbind option_bind].
  assert (exists w a b,
    (if negb (isRolling st) then Some (weakHash block)
     else
       idx content (offset st - 1) ≫= λ removed,
       idx content (endingByte content (offset st) - 1) ≫= λ added,
         Some (roll (aweak st) (bweak st) removed added
                    (endingByte content (offset st) - offset st))) = Some (w, a, b))
    as (w & a & b & Hh).
  { destruct (isRolling st) eqn:Er; cbn [negb].
    - specialize (Hr eq_refl).
      destruct (idx_in_range content (offset st - 1)) as [x Hx]; [lia |].
      destruct (idx_in_range content (endingByte content (offset st) - 1)) as [y Hy]; [lia |].
      rewrite Hx, Hy. cbn [mbind option_bind].
      destruct (roll _ _ _ _ _) as [[w a] b]. eauto.
    - destruct (weakHash block) as [[w a] b]. eauto. }
  rewrite Hh. cbn [mbind option_bind].
  exists block, w, a, b. split; [reflexivity |].
  destruct (hashesMap !!! w) as [| h0 l0] eqn:El.
  { left. split; reflexivity. }
  destruct (searchStrongHash (h0 :: l0) (strongHash block)) as [blockHash |] eqn:Es.
  2:{ left. split; reflexivity. }
  right. exists blockHash.
  destruct (dirty st) eqn:Ed.
  - specialize (Hd eq_refl).
    rewrite slice_in_range by lia. cbn [mbind option_bind].
    eexists. split; [reflexivity |]. split; [| reflexivity].
    right. eexists. split; [reflexivity |]. split; reflexivity.
  - cbn [mbind option_bind]. exists (sent st). split; [reflexivity |].
    split; [| reflexivity]. left. split; reflexivity.
Qed.

Lemma data_nonempty_block (i : Z) : data_nonempty (op_block i).
Proof. intros H. discriminate H. Qed.

Lemma data_nonempty_slice (content : list byte) (lo hi : Z) (d : list byte) :
  slice content lo hi = Some d -> lo < hi -> data_nonempty (op_data d).
Proof.
  intros Hs Hlt _ E. apply slice_len in Hs. cbn [RSyncOp.data op_data] in E.
  subst d. unfold len in Hs. cbn in Hs. lia.
Qed.

Lemma scan_inv_start (content : list byte) : scan_inv content start.
Proof.
  split; cbn; try discriminate; try (pose proof (len_nonneg content); lia).
  constructor.
Qed.

(** A turn of the loop never panics, keeps the invariant and advances. *)
Lemma iteration_inv (content : list byte) (hashesMap : gmap Z (list BlockHash.t))
    (st : state) :
  scan_inv content st -> offset st < len content ->
  exists st', iteration content hashesMap st = Some st' /\
    scan_inv content st' /\ offset st < offset st'.
Proof.
  intros HI Hlt.
  destruct (iteration_cases content hashesMap st HI Hlt)
    as (block & w & a & b & Hw & Hc).
  destruct (window_in_loop content (offset st)) as (? & _ & He & _);
    [destruct HI; lia |].
  assert (endingByte content (offset st) <= offset st + 2) as He2 by apply min_le_l.
  destruct HI as [Hm Hml Hd Hr Hs].
  destruct Hc as [[-> _] | (bh & flushed & _ & Hf & ->)];
    eexists; (split; [reflexivity |]); (split; [| cbn; unfold BlockSize; lia]).
  - split; cbn; intros; try lia; try assumption.
  - split; cbn; unfold BlockSize; intros; try discriminate; try lia.
    apply Forall_app. split; [| repeat constructor; apply data_nonempty_block].
    destruct Hf as [[_ ->] | (d & Ed & Hsl & ->)]; [assumption |].
    apply Forall_app. split; [assumption |]. repeat constructor.
    apply (data_nonempty_slice _ _ _ _ Hsl). specialize (Hd Ed). lia.
Qed.

(** The loop ends within the fuel that separates [offset] from the end of
    the content, in a state past the end that satisfies the invariant. *)
Lemma scan_terminates (content : list byte) (hashesMap : gmap Z (list BlockHash.t))
    (fuel : nat) :
  forall st, scan_inv content st -> len content - offset st <= Z.of_nat fuel ->
  exists st', scan fuel content hashesMap st = Some st' /\
    scan_inv content st' /\ len content <= offset st'.
Proof.
  induction fuel as [| fuel IH]; intros st HI Hf; cbn [scan]; case_decide.
  - lia.
  - exists st. split; [reflexivity |]. split; [assumption | lia].
  - destruct (iteration_inv content hashesMap st HI) as (st1 & -> & HI1 & Hlt); [lia |].
    cbn [mbind option_bind]. apply IH; [assumption | lia].
  - exists st. split; [reflexivity |]. split; [assumption | lia].
Qed.

Lemma reachable_inv (content : list byte) (hashesMap : gmap Z (list BlockHash.t))
    (st : state) :
  reachable content hashesMap st -> scan_inv content st.
Proof.
  induction 1 as [| st st' _ IH Hlt Hit].
  - apply scan_inv_start.
  - destruct (iteration_inv content hashesMap st IH Hlt) as (st1 & E & HI1 & _).
    congruence.
Qed.

(** [CalculateDifferences] returns: it neither panics nor loops. *)
Lemma CalculateDifferences_returns (content : list byte) (hashes : list BlockHash.t) :
  exists ops, CalculateDifferences content hashes = Some ops /\
    Forall data_nonempty ops.
Proof.
  unfold CalculateDifferences.
  destruct (scan_terminates content (foldl add_hash ∅ hashes) (length content) start)
    as (st & -> & [Hm Hml Hd Hr Hs] & Hend).
  { apply scan_inv_start. }
  { cbn. unfold len. lia. }
  cbn [mbind option_bind]. destruct (dirty st) eqn:Ed.
  - specialize (Hd eq_refl). rewrite slice_in_range by lia.
    cbn [mbind option_bind]. eexists. split; [reflexivity |].
    apply Forall_app. split; [assumption |]. repeat constructor.
    eapply data_nonempty_slice; [apply slice_in_range | ]; lia.
  - eexists. split; [reflexivity | assumption].
Qed.

(** ** C9: no empty DATA operation *)

(** C9. For every target content and hash list [CalculateDifferences]
    returns an operation stream in which every [DATA] operation carries at
    least one byte, the one flushed at the end included; and at the head of
    every turn of its loop, whenever [dirty] is set, [previousMatch] is
    strictly below [offset], the point up to which the next [DATA]
    operation is cut. *)
Theorem data_ops_nonempty (content : list byte) (hashes : list BlockHash.t) :
  (exists ops, CalculateDifferences content hashes = Some ops /\
     forall op, op ∈ ops -> RSyncOp.opCode op = DATA -> 1 <= len (RSyncOp.data op)) /\
  (forall st, reachable content (foldl add_hash ∅ hashes) st ->
     dirty st = true -> previousMatch st < offset st <= len content).
Proof.
  split.
  - destruct (CalculateDifferences_returns content hashes) as (ops & E & Hall).
    exists ops. split; [exact E |]. intros op Hin Hop.
    rewrite Forall_forall in Hall. specialize (Hall op Hin Hop).
    destruct (RSyncOp.data op); [congruence |]. rewrite len_cons.
    pose proof (len_nonneg l). lia.
  - intros st Hr. apply (inv_dirty _ _ (reachable_inv _ _ _ Hr)).
Qed.

(** ** The weak-hash index *)

Lemma add_hash_lookup (m : gmap Z (list BlockHash.t)) (h : BlockHash.t) (w : Z) :
  add_hash m h !!! w =
    if decide (BlockHash.weakHash h = w) then m !!! w ++ [h] else m !!! w.
Proof.
  unfold add_hash. case_decide as E.
  - subst w. apply lookup_total_insert_eq.
  - apply lookup_total_insert_ne. exact E.
Qed.

Lemma foldl_add_hash_lookup (hashes : list BlockHash.t) (w : Z) :
  forall m : gmap Z (list BlockHash.t),
    foldl add_hash m hashes !!! w
    = m !!! w ++ filter (λ h, BlockHash.weakHash h = w) hashes.
Proof.
  induction hashes as [| h hashes IH]; intros m; cbn [foldl].
  - rewrite filter_nil, app_nil_r. reflexivity.
  - rewrite IH, add_hash_lookup, filter_cons. case_decide.
    + rewrite <- app_assoc. reflexivity.
    + reflexivity.
Qed.

(** A bucket is the sub-list of the hash list with that weak hash, in the
    order of the hash list. *)
Lemma bucket_is_filter (hashes : list BlockHash.t) (w : Z) :
  foldl add_hash ∅ hashes !!! w = filter (λ h, BlockHash.weakHash h = w) hashes.
Proof. rewrite foldl_add_hash_lookup, lookup_total_empty. reflexivity. Qed.

Lemma searchStrongHash_head (l : list BlockHash.t) (s : list byte) :
  searchStrongHash l s = head (filter (λ h, BlockHash.strongHash h = s) l).
Proof.
  induction l as [| h l IH]; cbn [searchStrongHash]; [reflexivity |].
  rewrite filter_cons. case_decide; [reflexivity | exact IH].
Qed.

Lemma search_is_first_match (hashes : list BlockHash.t) (w : Z) (s : list byte) :
  searchStrongHash (foldl add_hash ∅ hashes !!! w) s = first_match hashes w s.
Proof. rewrite searchStrongHash_head, bucket_is_filter. reflexivity. Qed.

(** ** C10: determinism and the first-match tie-break *)

(** C10. For every target content and hash list [CalculateDifferences]
    returns one operation sequence and no other, so two runs on the same
    input agree. The bucket of a weak hash holds the entries of the hash
    list with that weak hash in the order of the hash list,
    [searchStrongHash] returns the first entry of a bucket with the strong
    hash looked for, and in every turn of the loop the block sent is the
    index of that first match, a miss being the absence of any match. *)
Theorem differ_deterministic (content : list byte) (hashes : list BlockHash.t) :
  (exists ops, CalculateDifferences content hashes = Some ops /\
     forall ops', CalculateDifferences content hashes = Some ops' -> ops' = ops) /\
  (forall w, foldl add_hash ∅ hashes !!! w
             = filter (λ h, BlockHash.weakHash h = w) hashes) /\
  (forall l s, searchStrongHash l s
               = head (filter (λ h, BlockHash.strongHash h = s) l)) /\
  (forall st st' block,
     reachable content (foldl add_hash ∅ hashes) st ->
     offset st < len content ->
     iteration content (foldl add_hash ∅ hashes) st = Some st' ->
     window content (offset st) = Some block ->
     match first_match hashes (weak st') (strongHash block) with
     | Some blockHash =>
         last (sent st') = Some (op_block (BlockHash.index blockHash)) /\
         offset st' = offset st + BlockSize
     | None => sent st' = sent st /\ offset st' = offset st + 1
     end).
Proof.
  split; [| split; [| split]].
  - destruct (CalculateDifferences_returns content hashes) as (ops & E & _).
    exists ops. split; [exact E | congruence].
  - apply bucket_is_filter.
  - apply searchStrongHash_head.
  - intros st st' block Hr Hlt Hit Hw.
    destruct (iteration_cases content (foldl add_hash ∅ hashes) st
                (reachable_inv _ _ _ Hr) Hlt)
      as (block' & w & a & b & Hw' & Hc).
    assert (block' = block) as -> by congruence.
    rewrite search_is_first_match in Hc.
    destruct Hc as [[E Hs] | (bh & flushed & Hs & _ & E)];
      rewrite E in Hit; injection Hit as <-; cbn [weak sent offset]; rewrite Hs.
    + split; reflexivity.
    + split; [apply last_snoc | reflexivity].
Qed.

(** ** The reconstructor *)

Lemma copy_length (buf : list byte) (at_ room_ : nat) (src : list byte) :
  (at_ + room_ <= length buf)%nat -> length (copy buf at_ room_ src) = length buf.
Proof.
  intros H. unfold copy. rewrite !length_app, !length_take, length_drop. lia.
Qed.

(** Once a [BLOCK] operation of the stream fails the bounds check of its
    source, no result comes out, whatever stands before or after it. *)
Lemma apply_block_out_of_capacity (content : gslice) (op : RSyncOp.t)
    (ops2 : list RSyncOp.t) :
  RSyncOp.opCode op = BLOCK ->
  ~ source_in_capacity content (RSyncOp.blockIndex op) ->
  forall ops1 result o, apply content (ops1 ++ op :: ops2) result o = None.
Proof.
  intros Hop Hout ops1.
  induction ops1 as [| op1 ops1 IH]; intros result o; cbn [app apply].
  - rewrite decide_True by exact Hop.
    destruct (slice result o (o + BlockSize)) as [dst |]; [| reflexivity].
    cbn [mbind option_bind]. unfold reslice.
    rewrite decide_False by exact Hout. reflexivity.
  - repeat case_decide.
    + destruct (slice result o (o + BlockSize)) as [dst |]; [| reflexivity].
      cbn [mbind option_bind].
      destruct (reslice content _ _) as [src |]; [| reflexivity].
      cbn [mbind option_bind]. apply IH.
    + destruct (slice result o (len result)) as [dst |]; [| reflexivity].
      cbn [mbind option_bind]. apply IH.
    + apply IH.
Qed.

(** The buffer allocated at the start keeps its length through the loop. *)
Lemma apply_length (content : gslice) (ops : list RSyncOp.t) :
  forall result o r, apply content ops result o = Some r -> length r = length result.
Proof.
  induction ops as [| op ops IH]; intros result o r; cbn [apply].
  - intros [= <-]. reflexivity.
  - repeat case_decide.
    + destruct (slice result o (o + BlockSize)) as [dst |] eqn:Ed; [| discriminate].
      cbn [mbind option_bind].
      destruct (reslice content _ _) as [src |]; [| discriminate].
      cbn [mbind option_bind]. intros H'. apply IH in H'. rewrite H'.
      pose proof (slice_len _ _ _ _ Ed) as Hl. apply slice_Some in Ed as (? & ? & ? & _).
      apply copy_length. unfold len in *. lia.
    + destruct (slice result o (len result)) as [dst |] eqn:Ed; [| discriminate].
      cbn [mbind option_bind]. intros H'. apply IH in H'. rewrite H'.
      pose proof (slice_len _ _ _ _ Ed) as Hl. apply slice_Some in Ed as (? & ? & ? & _).
      apply copy_length. unfold len in *. lia.
    + apply IH.
Qed.

Lemma ApplyOps_length (content : gslice) (ops : list RSyncOp.t) (fileSize : Z)
    (r : list byte) :
  ApplyOps content ops fileSize = Some r -> len r = fileSize.
Proof.
  unfold ApplyOps, make. case_decide; [| discriminate]. cbn [mbind option_bind].
  intros H'. apply apply_length in H'. unfold len. rewrite H', length_replicate. lia.
Qed.

(** A [copy] into the tail of the buffer writes what fits and drops the
    rest. *)
Lemma copy_tail (buf : list byte) (at_ : nat) (src : list byte) :
  (at_ <= length buf)%nat ->
  copy buf at_ (length buf - at_) src
  = take (length buf) (take at_ buf ++ src ++ drop (at_ + length src) buf).
Proof.
  intros Hat. unfold copy.
  destruct (decide (length src <= length buf - at_)%nat) as [Hfit | Hover].
  - rewrite Nat.min_r by lia. rewrite (take_ge src) by lia.
    symmetry. apply take_ge. rewrite !length_app, length_take, length_drop. lia.
  - rewrite Nat.min_l by lia.
    rewrite take_app, (take_ge (take at_ buf)) by (rewrite length_take; lia).
    rewrite length_take, Nat.min_l by lia. f_equal.
    rewrite take_app, (drop_ge buf) by lia.
    rewrite (drop_ge buf) by lia. rewrite take_nil. reflexivity.
Qed.

Lemma apply_data_step (content : gslice) (d : list byte) (ops : list RSyncOp.t)
    (result : list byte) (o : Z) :
  0 <= o <= len result ->
  apply content (op_data d :: ops) result o
  = apply content ops
      (copy result (Z.to_nat o) (length result - Z.to_nat o) d) (o + len d).
Proof.
  intros Ho. cbn [apply]. rewrite decide_False by discriminate.
  rewrite decide_True by reflexivity.
  rewrite slice_in_range by lia. cbn [mbind option_bind].
  rewrite length_take, length_drop. unfold len. do 2 f_equal. lia.
Qed.

(** A stream of [DATA] operations only: the literal bytes are laid out from
    the cursor on, cut at the end of the buffer, provided every operation
    but the last ends within the buffer. *)
Lemma apply_data (content : gslice) (ds : list (list byte)) :
  forall result o,
    0 <= o -> o + len (concat (removelast ds)) <= len result ->
    apply content (op_data <$> ds) result o
    = Some (take (length result)
              (take (Z.to_nat o) result ++ concat ds
                 ++ drop (Z.to_nat o + length (concat ds)) result)).
Proof.
  induction ds as [| d ds IH]; intros result o Ho Hfit.
  - cbn [fmap list_fmap apply concat app]. rewrite Nat.add_0_r, take_drop.
    rewrite take_ge by lia. reflexivity.
  - pose proof (len_nonneg (concat (removelast (d :: ds)))).
    rewrite fmap_cons, apply_data_step by lia.
    destruct ds as [| d' ds].
    + cbn [fmap list_fmap apply concat]. rewrite app_nil_r.
      rewrite copy_tail by (unfold len in *; lia). reflexivity.
    + change (removelast (d :: d' :: ds)) with (d :: removelast (d' :: ds)) in Hfit.
      rewrite concat_cons, len_app in Hfit.
      pose proof (len_nonneg (concat (removelast (d' :: ds)))).
      pose proof (len_nonneg d).
      assert (Hd : (Z.to_nat o + length d <= length result)%nat)
        by (unfold len in *; lia).
      rewrite copy_tail by lia.
      set (result' := take (Z.to_nat o) result ++ d
                        ++ drop (Z.to_nat o + length d) result).
      assert (Hl : length result' = length result).
      { unfold result'. rewrite !length_app, length_take, length_drop. lia. }
      rewrite (take_ge result') by lia.
      rewrite IH; [| lia | unfold len in *; rewrite Hl; lia].
      rewrite Hl. do 2 f_equal.
      replace (Z.to_nat (o + len d)) with (length (take (Z.to_nat o) result ++ d))
        by (rewrite length_app, length_take; unfold len; lia).
      unfold result'. rewrite (app_assoc _ d), take_app_length, <- !app_assoc.
      rewrite (concat_cons d), <- !app_assoc. do 3 f_equal.
      rewrite (app_assoc _ d), drop_app_ge by lia.
      rewrite drop_drop. f_equal. rewrite !length_app, length_take. lia.
Qed.

(** ** C4: block indices are bounds-checked against the capacity only *)

(** C4, as amended. A [BLOCK] operation whose source range
    [blockIndex*BlockSize, blockIndex*BlockSize+BlockSize), computed in
    [int] arithmetic, does not lie within the capacity of the reference
    slice makes [ApplyOps] panic: no output is returned, whatever else the
    stream holds, and the index is not clamped. *)
Theorem block_outside_capacity_panics (content : gslice) (ops1 : list RSyncOp.t)
    (op : RSyncOp.t) (ops2 : list RSyncOp.t) (fileSize : Z) :
  RSyncOp.opCode op = BLOCK ->
  ~ source_in_capacity content (RSyncOp.blockIndex op) ->
  ApplyOps content (ops1 ++ op :: ops2) fileSize = None.
Proof.
  intros Hop Hout. unfold ApplyOps.
  destruct (make fileSize) as [result |]; [| reflexivity].
  cbn [mbind option_bind]. apply apply_block_out_of_capacity; assumption.
Qed.

Lemma block_outside_capacity_panics_witness :
  RSyncOp.opCode (op_block 1) = BLOCK /\
  ~ source_in_capacity (exact [x01; x02]) (RSyncOp.blockIndex (op_block 1)) /\
  ApplyOps (exact [x01; x02]) ([op_data [x09]] ++ op_block 1 :: []) 3 = None.
Proof.
  assert (H : ~ source_in_capacity (exact [x01; x02]) (RSyncOp.blockIndex (op_block 1))).
  { unfold source_in_capacity. vm_compute. intros (_ & _ & H). apply H. reflexivity. }
  split; [reflexivity |]. split; [exact H |].
  exact (block_outside_capacity_panics (exact [x01; x02]) [op_data [x09]] (op_block 1) [] 3
           eq_refl H).
Defined.

(** On a reference slice without spare capacity and of even length, and for
    an index that does not overflow when doubled, the bounds check catches
    every index that names no block. *)
Lemma invalid_block_outside_exact_capacity (l : list byte) (i : Z) :
  len l `rem` BlockSize = 0 -> - 2 ^ 62 <= i < 2 ^ 62 - 1 ->
  ~ valid_block l i -> ~ source_in_capacity (exact l) i.
Proof.
  unfold valid_block, getBlocksNumber, source_in_capacity, cap, exact, BlockSize.
  cbn [vis room]. change (len (@nil byte)) with 0.
  intros Hr Hi Hv. rewrite decide_False in Hv by (intros H; apply H; exact Hr).
  pose proof (len_nonneg l).
  assert (Hw : forall z, - 2 ^ 63 <= z < 2 ^ 63 -> wrap_int z = z).
  { intros z Hz. unfold wrap_int. rewrite Z.mod_small; lia. }
  rewrite (Hw (i * 2)) by lia. rewrite (Hw (i * 2 + 2)) by lia.
  intros (H1 & H2 & H3). apply Hv.
  rewrite Z.rem_mod_nonneg in Hr by lia. rewrite Z.quot_div_nonneg by lia.
  pose proof (Z.div_mod (len l) 2 ltac:(lia)). lia.
Qed.

(** The claim as stated fails: index 1 names no block of a two-byte
    content, yet with two spare bytes behind the content the operation is
    served from them; and index -2^63 doubles to 0 in [int] arithmetic and
    is served from block 0. *)
Lemma block_index_not_validated :
  ~ valid_block [x01; x02] 1 /\
  ApplyOps (GSlice [x01; x02] [x00; x00]) [op_block 1] 2 = Some [x00; x00] /\
  ~ valid_block [x01; x02] (- 2 ^ 63) /\
  ApplyOps (exact [x01; x02]) [op_block (- 2 ^ 63)] 2 = Some [x01; x02].
Proof.
  split; [| split; [| split]].
  - unfold valid_block. vm_compute. intros [_ H]. discriminate H.
  - vm_compute. reflexivity.
  - unfold valid_block. vm_compute. intros [H _]. apply H. reflexivity.
  - vm_compute. reflexivity.
Qed.

(** ** C5: the declared length is imposed, not checked *)

(** C5, as amended. [ApplyOps] does not compare the bytes the operations
    contribute with the declared output length: whenever it returns, the
    result has exactly the declared length; and for a stream of [DATA]
    operations of which all but the last end within that length, it returns
    the literal bytes followed by zero bytes, cut at the declared length:
    zero-padded when the operations contribute less, truncated when the last
    one contributes more. *)
Theorem declared_length_imposed (content : gslice) :
  (forall ops fileSize r,
     ApplyOps content ops fileSize = Some r -> len r = fileSize) /\
  (forall ds fileSize,
     0 <= fileSize -> len (concat (removelast ds)) <= fileSize ->
     ApplyOps content (op_data <$> ds) fileSize
     = Some (take (Z.to_nat fileSize)
               (concat ds ++ replicate (Z.to_nat fileSize - length (concat ds)) x00))).
Proof.
  split.
  - intros ops fileSize r. apply ApplyOps_length.
  - intros ds fileSize Hn Hfit. unfold ApplyOps, make.
    rewrite decide_True by exact Hn. cbn [mbind option_bind].
    rewrite apply_data; [| lia | unfold len in *; rewrite length_replicate; lia].
    rewrite length_replicate. change (Z.to_nat 0) with 0%nat.
    rewrite take_0, drop_replicate. reflexivity.
Qed.

(** The claim as stated fails: one literal byte against a declared length
    of three is padded with zeros, three literal bytes against a declared
    length of two are cut, and both results are returned. *)
Lemma length_mismatch_not_surfaced :
  bytes_contributed [op_data [x01]] = 1 /\
  ApplyOps (exact []) [op_data [x01]] 3 = Some [x01; x00; x00] /\
  bytes_contributed [op_data [x01; x02; x03]] = 3 /\
  ApplyOps (exact []) [op_data [x01; x02; x03]] 2 = Some [x01; x02].
Proof. vm_compute. repeat split; reflexivity. Qed.

(** ** C3: the final partial block *)

(** C3. The content [[5]] has one block, of true length 1. A [BLOCK 0]
    operation makes [ApplyOps] slice [BlockSize] bytes on both sides: with
    an output of one byte, or a reference of capacity one, it panics, and
    with a spare byte behind the reference it copies that byte as well. *)
Theorem partial_block_copied_whole :
  getBlocksNumber [x05] = 1 /\
  blockHashAt [x05] 0
    = Some (BlockHash.Make 0 (strongHash [x05]) (weakHash [x05]).1.1) /\
  ApplyOps (exact [x05]) [op_block 0] 1 = None /\
  ApplyOps (exact [x05]) [op_block 0] 2 = None /\
  ApplyOps (GSlice [x05] [x09]) [op_block 0] 2 = Some [x05; x09].
Proof. vm_compute. repeat split; reflexivity. Qed.

(** ** C2: the window of the scan loop *)

(** C2. In every turn of the scan loop, for every target content and hash
    list, the window is a legal slice that starts at [offset] and ends at
    [min(offset+BlockSize, len(content)-1)]: it never holds the last byte of
    the content. On the content [[1, 2]] the window at offset 0 is [[1]],
    where the range [offset, min(offset+BlockSize, length)) holds [[1, 2]]. *)
Theorem window_stops_before_last_byte :
  (forall content hashes st,
     reachable content (foldl add_hash ∅ hashes) st ->
     offset st < len content ->
     exists w, window content (offset st) = Some w /\
       offset st + len w = rsync.min (offset st + BlockSize) (len content - 1) /\
       offset st + len w < len content) /\
  window [x01; x02] 0 = Some [x01] /\
  slice [x01; x02] 0 (Z.min (0 + BlockSize) (len [x01; x02])) = Some [x01; x02].
Proof.
  split; [| split; reflexivity].
  intros content hashes st Hr Hlt.
  pose proof (inv_match _ _ (reachable_inv _ _ _ Hr)) as Hm.
  destruct (window_in_loop content (offset st)) as (w & Hw & He & Hl); [lia |].
  exists w. split; [exact Hw |]. unfold endingByte in *. lia.
Qed.

(** ** C6: a target equal to the reference *)

(** C6. For the content [[1, 2]], one full block, the stream for a target
    equal to the reference is one [DATA] operation carrying both bytes: the
    window at offset 0 is [[1]], which matches no block hash. For the
    three-byte content [[1, 2, 3]] the last byte is sent as [DATA]. *)
Theorem identity_sends_data :
  CalculateBlockHashes [x01; x02]
    = Some [BlockHash.Make 0 (strongHash [x01; x02]) (weakHash [x01; x02]).1.1] /\
  identity_ops [x01; x02] = Some [op_data [x01; x02]] /\
  identity_ops [x01; x02; x03] = Some [op_block 0; op_data [x03]].
Proof. vm_compute. repeat split; reflexivity. Qed.

(** ** C1: the round trip *)

(** C1. For the reference [[5]] and the target [[5, 7]] the differ sends
    the single operation [BLOCK 0] and no [DATA]: the one-byte window at
    offset 0 matches the partial block, and the jump of [BlockSize] ends the
    loop with [dirty] unset. [ApplyOps] then panics on a reference without
    spare capacity, and returns [[5, 0]] on a reference with a zeroed spare
    byte; neither is the target. *)
Theorem round_trip_loses_last_byte :
  (hashes ← CalculateBlockHashes [x05]; CalculateDifferences [x05; x07] hashes)
    = Some [op_block 0] /\
  round_trip (exact [x05]) [x05; x07] = None /\
  round_trip (GSlice [x05] [x00]) [x05; x07] = Some [x05; x00].
Proof. vm_compute. repeat split; reflexivity. Qed.

(** ** The scenario of the repository's tests *)

Example text_scenario_ops :
  (hashes ← CalculateBlockHashes text_original;
   CalculateDifferences text_modified hashes)
  = Some [op_block 0; op_block 1; op_data [x20]; op_block 3;
          op_data [x74; x72; x61]; op_block 2; op_block 3; op_block 4;
          op_data [x0a]].
Proof. vm_compute. reflexivity. Qed.

Example text_scenario_round_trip :
  round_trip (exact text_original) text_modified = Some text_modified.
Proof. vm_compute. reflexivity. Qed.

Example md5_vectors :
  byteZ <$> MD5.sum (concat (replicate 8 [x31; x32; x33; x34; x35; x36; x37; x38; x39; x30]))
    = [87; 237; 244; 162; 43; 227; 201; 85; 172; 73; 218; 46; 33; 7; 182; 122] /\
  byteZ <$> MD5.sum []
    = [212; 29; 140; 217; 143; 0; 178; 4; 233; 128; 9; 152; 236; 248; 66; 126] /\
  byteZ <$> MD5.sum [x61; x62; x63]
    = [144; 1; 80; 152; 60; 210; 79; 176; 214; 150; 63; 125; 40; 225; 127; 114].
Proof. vm_compute. repeat split; reflexivity. Qed.

(** * Further properties of the code *)

(** ** weakHash *)

Lemma byteZ_range (b : byte) : 0 <= byteZ b < 256.
Proof. unfold byteZ. pose proof (Byte.to_N_bounded b). lia. Qed.

(** X1. For every window [weakHash] returns the sum of the byte values and
    the sum of the byte values weighted by [len(v) - i], both reduced modulo
    65536 whatever the [uint32] accumulators wrapped to, and the weak hash
    is [a + 65536 * b]: a [uint32] with a in its low and b in its high 16
    bits. *)
Theorem weakHash_halves (v : list byte) :
  let '(weak, a, b) := weakHash v in
  a = sum_a v mod 65536 /\ b = sum_b v mod 65536 /\
  weak = a + 65536 * b /\
  0 <= a < 65536 /\ 0 <= b < 65536 /\ 0 <= weak < 2 ^ 32 /\
  Z.land weak (2 ^ 16 - 1) = a /\ Z.shiftr weak 16 = b.
Proof.
  rewrite weakHash_sums.
  pose proof (mod_M_range (sum_a v)) as Ha. pose proof (mod_M_range (sum_b v)) as Hb.
  change M with 65536 in *.
  set (a := sum_a v mod 65536) in *. set (b := sum_b v mod 65536) in *.
  repeat split; try lia.
  - change (2 ^ 16 - 1) with (Z.ones 16). rewrite Z.land_ones by lia.
    change (2 ^ 16) with 65536. replace (a + 65536 * b) with (a + b * 65536) by lia.
    rewrite Z.mod_add by lia. apply Z.mod_small. lia.
  - rewrite Z.shiftr_div_pow2 by lia. change (2 ^ 16) with 65536.
    replace (a + 65536 * b) with (a + b * 65536) by lia.
    rewrite Z.div_add by lia. rewrite (Z.div_small a) by lia. lia.
Qed.

(** X2. The weak hash does not see zero bytes at the head of a window: a
    window and the same window behind one more zero byte have the same weak
    hash and the same halves, so windows of different lengths collide. *)
Theorem weakHash_leading_zero (v : list byte) :
  weakHash (x00 :: v) = weakHash v.
Proof.
  rewrite !weakHash_sums. cbn [sum_a sum_b].
  change (byteZ x00) with 0. rewrite Z.mul_0_r, !Z.add_0_l. reflexivity.
Qed.

(** ** getBlocksNumber and CalculateBlockHashes *)

Lemma getBlocksNumber_bounds (content : list byte) :
  (getBlocksNumber content - 1) * BlockSize < len content
  /\ len content <= getBlocksNumber content * BlockSize
  /\ (getBlocksNumber content = 0 <-> content = []).
Proof.
  destruct (getBlocksNumber_range content (getBlocksNumber content - 1)) as [Hn Hlt].
  pose proof (len_nonneg content) as Hl.
  assert (Hup : len content <= getBlocksNumber content * BlockSize).
  { unfold getBlocksNumber, BlockSize.
    rewrite Z.rem_mod_nonneg, Z.quot_div_nonneg by lia.
    pose proof (Z.div_mod (len content) 2 ltac:(lia)).
    pose proof (Z.mod_pos_bound (len content) 2 ltac:(lia)).
    case_decide; lia. }
  unfold BlockSize in *. split; [| split; [exact Hup |]].
  - destruct (decide (getBlocksNumber content = 0)) as [E | E]; lia.
  - split.
    + intros E. destruct content as [| x content]; [reflexivity |].
      rewrite E, len_cons in Hup. pose proof (len_nonneg content). lia.
    + intros ->. reflexivity.
Qed.

(** X3. [getBlocksNumber] is the least number of blocks of [BlockSize] bytes
    that cover the content: zero for the empty content, and otherwise the
    last block starts inside the content. *)
Theorem getBlocksNumber_covers (content : list byte) :
  (getBlocksNumber content - 1) * BlockSize < len content
  /\ len content <= getBlocksNumber content * BlockSize
  /\ (getBlocksNumber content = 0 <-> content = []).
Proof. apply getBlocksNumber_bounds. Qed.

Lemma le_bytes_length (n : nat) (w : Z) : length (MD5.le_bytes n w) = n.
Proof. revert w. induction n as [| n IH]; intros w; cbn [MD5.le_bytes length]; auto. Qed.

Lemma strongHash_length (v : list byte) : length (strongHash v) = 16%nat.
Proof.
  unfold strongHash, MD5.sum.
  destruct (foldl MD5.block MD5.init _) as [[[a b] c] d].
  rewrite !length_app, !le_bytes_length. reflexivity.
Qed.

Lemma concat_blocks (content : list byte) (k m : nat) :
  concat (nth_block content <$> seq k m) = take (2 * m) (drop (2 * k) content).
Proof.
  revert k. induction m as [| m IH]; intros k; cbn [seq fmap list_fmap concat].
  - reflexivity.
  - change (list_fmap _ _ (nth_block content) (seq (S k) m))
      with (nth_block content <$> seq (S k) m).
    rewrite IH. unfold nth_block. change (Z.to_nat BlockSize) with 2%nat.
    replace (2 * S k)%nat with (2 * k + 2)%nat by lia.
    replace (k * 2)%nat with (2 * k)%nat by lia.
    rewrite <- drop_drop, take_take_drop. f_equal. lia.
Qed.

(** The block that [CalculateBlockHashes] slices for index [i]. *)
Lemma block_slice (content : list byte) (i : nat) (block : list byte) :
  slice content (Z.of_nat i * BlockSize)
        (Z.min ((Z.of_nat i + 1) * BlockSize) (len content)) = Some block ->
  block = nth_block content i.
Proof.
  intros H. apply slice_Some in H as (_ & Hlo & _ & ->).
  unfold nth_block, BlockSize in *. change (Z.to_nat 2) with 2%nat.
  replace (Z.to_nat (Z.of_nat i * 2)) with (i * 2)%nat by lia.
  destruct (decide ((Z.of_nat i + 1) * 2 <= len content)) as [Hfull | Hshort].
  - f_equal. lia.
  - rewrite !take_ge; [reflexivity | |]; rewrite length_drop; unfold len in *; lia.
Qed.

(** X4. [CalculateBlockHashes] never fails and returns one hash per block,
    [getBlocksNumber] of them: entry [i] carries the index [i], the weak
    hash and the 16-byte strong hash of block [i]; the blocks, put end to
    end, are the content; no block is empty, and only the last one may be
    shorter than [BlockSize]. *)
Theorem CalculateBlockHashes_blocks (content : list byte) :
  exists hashes, CalculateBlockHashes content = Some hashes /\
    len hashes = getBlocksNumber content /\
    concat (nth_block content <$> seq 0 (length hashes)) = content /\
    forall (i : nat) h, hashes !! i = Some h ->
      h = BlockHash.Make (Z.of_nat i) (strongHash (nth_block content i))
                         (weakHash (nth_block content i)).1.1 /\
      length (BlockHash.strongHash h) = 16%nat /\
      1 <= len (nth_block content i) <= BlockSize /\
      (len (nth_block content i) = BlockSize \/ S i = length hashes).
Proof.
  destruct (CalculateBlockHashes_returns content) as (hashes & E & Hlen & Hall).
  destruct (getBlocksNumber_bounds content) as (Hlow & Hup & _).
  exists hashes. split; [exact E |]. split; [exact Hlen |]. split.
  - rewrite concat_blocks. cbn [drop]. apply take_ge.
    unfold len, BlockSize in *. lia.
  - intros i h Hi. destruct (Hall i h Hi) as (block & Hs & Hl & ->).
    pose proof (lookup_lt_Some _ _ _ Hi) as Hlt.
    pose proof (slice_len _ _ _ _ Hs) as Hbl.
    apply block_slice in Hs. subst block.
    split; [reflexivity |]. split; [apply strongHash_length |].
    unfold len, BlockSize in *. split; lia.
Qed.

(** ** The scan loop, continued *)

(** The weak hash a turn leaves in the state: recomputed over the window,
    or rolled from the state's halves with the byte before the window and
    the last byte of the window. *)
Lemma iteration_hashed (content : list byte) (hashesMap : gmap Z (list BlockHash.t))
    (st st' : state) (block : list byte) :
  iteration content hashesMap st = Some st' ->
  window content (offset st) = Some block ->
  (isRolling st = false /\ (weak st', aweak st', bweak st') = weakHash block) \/
  (isRolling st = true /\ exists removed added,
     idx content (offset st - 1) = Some removed /\
     idx content (endingByte content (offset st) - 1) = Some added /\
     (weak st', aweak st', bweak st')
     = roll (aweak st) (bweak st) removed added
            (endingByte content (offset st) - offset st)).
Proof.
  intros Hit Hw. unfold iteration in Hit. rewrite Hw in Hit.
  cbn [mbind option_bind] in Hit.
  destruct (isRolling st); cbn [negb] in Hit.
  - right. split; [reflexivity |].
    destruct (idx content (offset st - 1)) as [removed |]; [| discriminate].
    cbn [mbind option_bind] in Hit.
    destruct (idx content (endingByte content (offset st) - 1)) as [added |];
      [| discriminate].
    cbn [mbind option_bind] in Hit. exists removed, added.
    split; [reflexivity |]. split; [reflexivity |].
    destruct (roll _ _ _ _ _) as [[w a] b]. finish_turn Hit.
  - left. split; [reflexivity |].
    destruct (weakHash block) as [[w a] b]. finish_turn Hit.
Qed.

(** A run of the loop ends in a state the loop reaches, past the end of the
    content. *)
Lemma scan_reachable (content : list byte) (hashesMap : gmap Z (list BlockHash.t))
    (fuel : nat) :
  forall st st', reachable content hashesMap st ->
    scan fuel content hashesMap st = Some st' ->
    reachable content hashesMap st' /\ len content <= offset st'.
Proof.
  induction fuel as [| fuel IH]; intros st st' Hr; cbn [scan]; case_decide.
  - discriminate.
  - intros [= <-]. split; [assumption | lia].
  - destruct (iteration content hashesMap st) as [st1 |] eqn:Hit; [| discriminate].
    cbn [mbind option_bind]. apply IH. eapply reach_turn; eassumption.
  - intros [= <-]. split; [assumption | lia].
Qed.

(** The stream [CalculateDifferences] returns is what the loop has sent at
    its exit, followed by the rest of the content from [previousMatch] on
    when [dirty] is set. *)
Lemma CalculateDifferences_exit (content : list byte) (hashes : list BlockHash.t)
    (ops : list RSyncOp.t) :
  CalculateDifferences content hashes = Some ops ->
  exists st, reachable content (foldl add_hash ∅ hashes) st /\
    len content <= offset st /\
    ops = sent st ++
          (if dirty st then [op_data (drop (Z.to_nat (previousMatch st)) content)]
           else []).
Proof.
  unfold CalculateDifferences.
  destruct (scan _ _ _ start) as [st |] eqn:Es; [| discriminate].
  cbn [mbind option_bind].
  destruct (scan_reachable _ _ _ _ _ (reach_start _ _) Es) as [Hr Hend].
  pose proof (reachable_inv _ _ _ Hr) as [Hm Hml Hd _ _].
  intros H. exists st. split; [exact Hr |]. split; [exact Hend |].
  destruct (dirty st).
  - rewrite slice_in_range in H by lia. cbn [mbind option_bind] in H.
    injection H as <-. do 3 f_equal. apply take_ge.
    rewrite length_drop. unfold len. lia.
  - injection H as <-. rewrite app_nil_r. reflexivity.
Qed.

(** ** Rolling inside the loop *)

Lemma endingByte_full (content : list byte) (o : Z) (block : list byte) :
  window content o = Some block -> len block = BlockSize ->
  endingByte content o = o + BlockSize /\ o + BlockSize <= len content - 1.
Proof.
  intros Hw Hl. apply slice_len in Hw. rewrite Hl in Hw.
  pose proof (min_le_r (o + BlockSize) (len content - 1)) as Hr.
  unfold endingByte in *. lia.
Qed.

(** A turn on a window of full length leaves the hash of that window in
    the state, whether it recomputes or rolls. *)
Lemma turn_hash_full (content : list byte) (hashesMap : gmap Z (list BlockHash.t))
    (st st' : state) (block : list byte) :
  scan_inv content st -> carries_previous_hash content st ->
  iteration content hashesMap st = Some st' ->
  window content (offset st) = Some block -> len block = BlockSize ->
  (weak st', aweak st', bweak st') = weakHash block.
Proof.
  intros HI HK Hit Hw Hl.
  destruct (iteration_hashed _ _ _ _ _ Hit Hw)
    as [[_ E] | (Er & removed & added & Hrem & Hadd & E)]; [exact E |].
  destruct (endingByte_full _ _ _ Hw Hl) as [He Hfull].
  rewrite E, He in *. unfold BlockSize in *.
  pose proof (inv_rolling _ _ HI Er) as Ho.
  unfold window in Hw. rewrite He in Hw.
  assert (exists w0, slice content (offset st - 1) (offset st + 1) = Some w0)
    as [w0 Hw0] by (rewrite slice_in_range by lia; eauto).
  specialize (HK Er ltac:(lia) w0 Hw0).
  destruct (adjacent_windows content (offset st - 1) 2 w0 block removed added)
    as (mid & -> & -> & Hlen).
  { lia. }
  { rewrite <- Hw0. f_equal. lia. }
  { rewrite <- Hw. f_equal; lia. }
  { exact Hrem. }
  { rewrite <- Hadd. f_equal. lia. }
  pose proof (roll_slides removed added mid) as Hroll.
  rewrite <- HK, Hlen in Hroll.
  replace (offset st + 2 - offset st) with 2 by lia. exact Hroll.
Qed.

Lemma reachable_carries (content : list byte) (hashesMap : gmap Z (list BlockHash.t))
    (st : state) :
  reachable content hashesMap st -> carries_previous_hash content st.
Proof.
  induction 1 as [| st st' Hr IH Hlt Hit].
  - intros Er. discriminate Er.
  - intros Er Hfull w0 Hw0.
    pose proof (reachable_inv _ _ _ Hr) as HI.
    destruct (iteration_cases content hashesMap st HI Hlt)
      as (block & w & a & b & Hw & Hc).
    destruct Hc as [[E _] | (bh & flushed & _ & _ & E)];
      rewrite E in Hit; injection Hit as <-; cbn in Er, Hfull, Hw0 |- *;
      [| discriminate Er].
    replace (offset st + 1 - 1) with (offset st) in Hw0 by lia.
    assert (endingByte content (offset st) = offset st + 1 + 1) as He.
    { unfold endingByte, rsync.min, BlockSize. case_decide; lia. }
    assert (block = w0) as ->.
    { unfold window in Hw. rewrite He in Hw. congruence. }
    assert (Hit' : exists st1, iteration content hashesMap st = Some st1 /\
                     (weak st1, aweak st1, bweak st1) = (w, a, b))
      by (rewrite E; eexists; split; reflexivity).
    destruct Hit' as (st1 & Hit1 & <-).
    apply (turn_hash_full content hashesMap st st1 w0 HI IH Hit1 Hw).
    apply slice_len in Hw0. unfold BlockSize. lia.
Qed.

(** X5. In every turn of the scan loop whose window has the full length
    [BlockSize], the weak hash looked up in the index, and both halves kept
    for the next turn, are those of [weakHash] on the window, whether the
    turn recomputes them or rolls them from the previous turn. *)
Theorem rolled_hash_is_window_hash (content : list byte) (hashes : list BlockHash.t)
    (st st' : state) (block : list byte) :
  reachable content (foldl add_hash ∅ hashes) st ->
  iteration content (foldl add_hash ∅ hashes) st = Some st' ->
  window content (offset st) = Some block ->
  len block = BlockSize ->
  (weak st', aweak st', bweak st') = weakHash block.
Proof.
  intros Hr Hit Hw Hl.
  exact (turn_hash_full _ _ _ _ _ (reachable_inv _ _ _ Hr) (reachable_carries _ _ _ Hr)
           Hit Hw Hl).
Qed.

Lemma rolled_hash_is_window_hash_witness :
  let content := [x0a; x14; x1e; x28] in
  let st1 := State 1 0 30 40 (30 + 65536 * 40) true true [] in
  let st2 := State 2 0 50 70 (50 + 65536 * 70) true true [] in
  reachable content (foldl add_hash ∅ []) st1 /\
  iteration content (foldl add_hash ∅ []) st1 = Some st2 /\
  window content (offset st1) = Some [x14; x1e] /\
  len [x14; x1e] = BlockSize /\
  (weak st2, aweak st2, bweak st2) = weakHash [x14; x1e].
Proof.
  cbv zeta.
  assert (H1 : reachable [x0a; x14; x1e; x28] (foldl add_hash ∅ [])
                 (State 1 0 30 40 (30 + 65536 * 40) true true [])).
  { apply (reach_turn _ _ start); [apply reach_start | reflexivity |].
    vm_compute. reflexivity. }
  assert (H2 : iteration [x0a; x14; x1e; x28] (foldl add_hash ∅ [])
                 (State 1 0 30 40 (30 + 65536 * 40) true true [])
               = Some (State 2 0 50 70 (50 + 65536 * 70) true true []))
    by (vm_compute; reflexivity).
  split; [exact H1 |]. split; [exact H2 |]. split; [reflexivity |].
  split; [reflexivity |].
  exact (rolled_hash_is_window_hash [x0a; x14; x1e; x28] []
           (State 1 0 30 40 (30 + 65536 * 40) true true [])
           (State 2 0 50 70 (50 + 65536 * 70) true true [])
           [x14; x1e] H1 H2 eq_refl eq_refl).
Defined.

(** ** What the stream holds *)

Lemma search_in_hashes (hashes : list BlockHash.t) (w : Z) (s : list byte)
    (blockHash : BlockHash.t) :
  searchStrongHash (foldl add_hash ∅ hashes !!! w) s = Some blockHash ->
  blockHash ∈ hashes /\ BlockHash.weakHash blockHash = w /\
  BlockHash.strongHash blockHash = s.
Proof.
  rewrite search_is_first_match. unfold first_match. intros H.
  apply head_Some_elem_of in H.
  apply list_elem_of_filter in H as [Hs H]. apply list_elem_of_filter in H as [Hw H].
  auto.
Qed.

Lemma reachable_blocks_from_hashes (content : list byte) (hashes : list BlockHash.t)
    (st : state) :
  reachable content (foldl add_hash ∅ hashes) st ->
  Forall (λ op, RSyncOp.opCode op = BLOCK ->
            exists h o w, h ∈ hashes /\ RSyncOp.blockIndex op = BlockHash.index h /\
              window content o = Some w /\ BlockHash.strongHash h = strongHash w)
         (sent st).
Proof.
  induction 1 as [| st st' Hr IH Hlt Hit].
  - constructor.
  - destruct (iteration_cases content (foldl add_hash ∅ hashes) st
                (reachable_inv _ _ _ Hr) Hlt)
      as (block & w & a & b & Hw & Hc).
    destruct Hc as [[E _] | (bh & flushed & Hs & Hf & E)];
      rewrite E in Hit; injection Hit as <-; cbn [sent]; [exact IH |].
    apply search_in_hashes in Hs as (Hin & _ & Hstrong).
    apply Forall_app. split.
    + destruct Hf as [[_ ->] | (d & _ & _ & ->)]; [exact IH |].
      apply Forall_app. split; [exact IH |]. repeat constructor. discriminate.
    + repeat constructor. intros _. exists bh, (offset st), block. auto.
Qed.

(** X6. Every [BLOCK] operation that [CalculateDifferences] sends carries
    the index of an entry of the hash list it was given, and that entry has
    the strong hash of a window of the target; when the list comes from
    [CalculateBlockHashes] on a reference content, the index names one of
    the blocks of that content. *)
Theorem block_indices_from_hash_list (modified : list byte) (hashes : list BlockHash.t)
    (ops : list RSyncOp.t) (op : RSyncOp.t) :
  CalculateDifferences modified hashes = Some ops ->
  op ∈ ops -> RSyncOp.opCode op = BLOCK ->
  (exists h o w, h ∈ hashes /\ RSyncOp.blockIndex op = BlockHash.index h /\
     window modified o = Some w /\ BlockHash.strongHash h = strongHash w) /\
  (forall original, CalculateBlockHashes original = Some hashes ->
     valid_block original (RSyncOp.blockIndex op)).
Proof.
  intros Hcd Hin Hop.
  destruct (CalculateDifferences_exit _ _ _ Hcd) as (st & Hr & _ & ->).
  assert (Hh : exists h o w, h ∈ hashes /\ RSyncOp.blockIndex op = BlockHash.index h /\
                 window modified o = Some w /\ BlockHash.strongHash h = strongHash w).
  { apply elem_of_app in Hin as [Hin | Hin].
    - pose proof (reachable_blocks_from_hashes _ _ _ Hr) as Hall.
      rewrite Forall_forall in Hall. exact (Hall op Hin Hop).
    - destruct (dirty st); [| inversion Hin].
      apply list_elem_of_singleton in Hin. subst op. discriminate Hop. }
  split; [exact Hh |]. intros original Hcb.
  destruct Hh as (h & _ & _ & Hh & -> & _).
  destruct (CalculateBlockHashes_returns original) as (hashes' & E & Hlen & Hall).
  assert (hashes' = hashes) as -> by congruence.
  apply list_elem_of_lookup in Hh as [i Hi].
  destruct (Hall i h Hi) as (block & _ & _ & ->).
  pose proof (lookup_lt_Some _ _ _ Hi). unfold valid_block. cbn [BlockHash.index].
  unfold len in Hlen. lia.
Qed.

Lemma block_indices_from_hash_list_witness :
  let hashes := [BlockHash.Make 0 (strongHash [x05]) (weakHash [x05]).1.1] in
  CalculateDifferences [x05; x07] hashes = Some [op_block 0] /\
  op_block 0 ∈ [op_block 0] /\
  RSyncOp.opCode (op_block 0) = BLOCK /\
  (exists h o w, h ∈ hashes /\ RSyncOp.blockIndex (op_block 0) = BlockHash.index h /\
     window [x05; x07] o = Some w /\ BlockHash.strongHash h = strongHash w) /\
  (forall original, CalculateBlockHashes original = Some hashes ->
     valid_block original (RSyncOp.blockIndex (op_block 0))).
Proof.
  cbv zeta.
  assert (H1 : CalculateDifferences [x05; x07]
                 [BlockHash.Make 0 (strongHash [x05]) (weakHash [x05]).1.1]
               = Some [op_block 0]) by (vm_compute; reflexivity).
  assert (H2 : op_block 0 ∈ [op_block 0]) by apply list_elem_of_here.
  split; [exact H1 |]. split; [exact H2 |]. split; [reflexivity |].
  exact (block_indices_from_hash_list [x05; x07]
           [BlockHash.Make 0 (strongHash [x05]) (weakHash [x05]).1.1]
           [op_block 0] (op_block 0) H1 H2 eq_refl).
Defined.

Lemma data_then_block_snoc (l : list RSyncOp.t) (x : RSyncOp.t) :
  data_then_block l ->
  (forall a, last l = Some a -> RSyncOp.opCode a = DATA -> RSyncOp.opCode x = BLOCK) ->
  data_then_block (l ++ [x]).
Proof.
  intros Hl Hx i a b Ha Hb Hop.
  pose proof (lookup_lt_Some _ _ _ Hb) as Hlt. rewrite length_app in Hlt. cbn in Hlt.
  destruct (decide (S i < length l)%nat) as [Hin | Hout].
  - rewrite lookup_app_l in Ha, Hb by lia. exact (Hl i a b Ha Hb Hop).
  - assert (S i = length l) as Hi by lia.
    rewrite lookup_app_l in Ha by lia. rewrite lookup_app_r in Hb by lia.
    rewrite Hi, Nat.sub_diag in Hb. injection Hb as <-.
    apply (Hx a); [| exact Hop].
    rewrite last_lookup, <- Hi. exact Ha.
Qed.

Lemma reachable_shape (content : list byte) (hashesMap : gmap Z (list BlockHash.t))
    (st : state) :
  reachable content hashesMap st ->
  data_then_block (sent st) /\
  (forall a, last (sent st) = Some a -> RSyncOp.opCode a = BLOCK) /\
  Forall known_op (sent st).
Proof.
  induction 1 as [| st st' Hr (IH1 & IH2 & IH3) Hlt Hit].
  - split; [| split].
    + intros i a b Ha. discriminate Ha.
    + intros a Ha. discriminate Ha.
    + constructor.
  - destruct (iteration_cases content hashesMap st (reachable_inv _ _ _ Hr) Hlt)
      as (block & w & a & b & Hw & Hc).
    destruct Hc as [[E _] | (bh & flushed & _ & Hf & E)];
      rewrite E in Hit; injection Hit as <-; cbn [sent]; [auto |].
    assert (data_then_block flushed /\ Forall known_op flushed) as [Hf1 Hf3].
    { destruct Hf as [[_ ->] | (d & _ & _ & ->)]; [auto |]. split.
      - apply data_then_block_snoc; [exact IH1 |].
        intros x Hx Hop. specialize (IH2 x Hx). rewrite Hop in IH2. discriminate IH2.
      - apply Forall_app. split; [exact IH3 |]. apply Forall_singleton. right. reflexivity. }
    split; [| split].
    + apply data_then_block_snoc; [exact Hf1 | reflexivity].
    + intros x Hx. rewrite last_snoc in Hx. injection Hx as <-. reflexivity.
    + apply Forall_app. split; [exact Hf3 |]. apply Forall_singleton. left. reflexivity.
Qed.

(** X7. The stream of [CalculateDifferences] holds [BLOCK] and [DATA]
    operations only, and never two [DATA] operations in a row: a [DATA]
    operation is the last of the stream or is followed by a [BLOCK], so the
    literal bytes between two matches travel in one operation. *)
Theorem data_runs_are_single_ops (content : list byte) (hashes : list BlockHash.t) :
  exists ops, CalculateDifferences content hashes = Some ops /\
    Forall known_op ops /\ data_then_block ops.
Proof.
  destruct (CalculateDifferences_returns content hashes) as (ops & E & _).
  exists ops. split; [exact E |].
  destruct (CalculateDifferences_exit _ _ _ E) as (st & Hr & _ & ->).
  destruct (reachable_shape _ _ _ Hr) as (H1 & H2 & H3).
  destruct (dirty st); [| rewrite app_nil_r; auto].
  split.
  - apply Forall_app. split; [exact H3 |]. apply Forall_singleton. right. reflexivity.
  - apply data_then_block_snoc; [exact H1 |].
    intros x Hx Hop. specialize (H2 x Hx). rewrite Hop in H2. discriminate H2.
Qed.

(** ** What the stream accounts for *)

Lemma replay_app (content : list byte) (l1 l2 : list RSyncOp.t) :
  forall c, replay content (l1 ++ l2) c = replay content l1 c ≫= replay content l2.
Proof.
  induction l1 as [| op l1 IH]; intros c; cbn [app replay].
  - reflexivity.
  - repeat case_decide; auto.
Qed.

Lemma replay_data (content : list byte) (lo hi : Z) (d : list byte) :
  slice content lo hi = Some d ->
  replay content [op_data d] lo = Some hi.
Proof.
  intros H. pose proof (slice_len _ _ _ _ H) as Hl. cbn [replay].
  rewrite decide_False by discriminate. cbn [RSyncOp.data op_data].
  replace (lo + len d) with hi by lia. rewrite decide_True by exact H.
  reflexivity.
Qed.

Lemma reachable_accounted (content : list byte) (hashesMap : gmap Z (list BlockHash.t))
    (st : state) :
  reachable content hashesMap st ->
  replay content (sent st) 0 = Some (previousMatch st) /\
  (dirty st = false ->
     previousMatch st = offset st \/
     (previousMatch st = len content - 1 /\ len content <= offset st /\
      exists l i, sent st = l ++ [op_block i])).
Proof.
  induction 1 as [| st st' Hr [IH1 IH2] Hlt Hit].
  - split; [reflexivity |]. intros _. left. reflexivity.
  - destruct (iteration_cases content hashesMap st (reachable_inv _ _ _ Hr) Hlt)
      as (block & w & a & b & Hw & Hc).
    destruct Hc as [[E _] | (bh & flushed & _ & Hf & E)];
      rewrite E in Hit; injection Hit as <-; cbn [sent previousMatch dirty offset].
    { split; [exact IH1 | discriminate]. }
    assert (replay content flushed 0 = Some (offset st)) as Hfl.
    { destruct Hf as [[Ed ->] | (d & Ed & Hsl & ->)].
      - destruct (IH2 Ed) as [<- | (_ & Hge & _)]; [exact IH1 | lia].
      - rewrite replay_app, IH1. cbn [mbind option_bind].
        apply (replay_data _ _ _ _ Hsl). }
    split.
    + rewrite replay_app, Hfl. cbn [mbind option_bind replay].
      rewrite decide_True by reflexivity. reflexivity.
    + intros _. unfold endingByte, rsync.min, BlockSize. case_decide.
      * left. reflexivity.
      * destruct (decide (offset st + 2 = len content - 1)); [left; lia |].
        right. split; [reflexivity |]. split; [lia | eauto].
Qed.

(** X8. Read back against the target, the stream of [CalculateDifferences]
    is consistent and in order: every [DATA] operation carries the bytes of
    the target at the cursor, every [BLOCK] operation stands for the window
    hashed at the cursor. The cursor ends at the end of the target, or one
    byte before it, and then the stream ends with a [BLOCK]: the last byte
    of the target is in no operation. *)
Theorem stream_accounts_for_target (content : list byte) (hashes : list BlockHash.t) :
  exists ops c, CalculateDifferences content hashes = Some ops /\
    replay content ops 0 = Some c /\
    (c = len content \/
     (c = len content - 1 /\ exists l i, ops = l ++ [op_block i])).
Proof.
  destruct (CalculateDifferences_returns content hashes) as (ops & E & _).
  exists ops.
  destruct (CalculateDifferences_exit _ _ _ E) as (st & Hr & Hend & ->).
  destruct (reachable_accounted _ _ _ Hr) as [H1 H2].
  pose proof (reachable_inv _ _ _ Hr) as [Hm Hml Hd _ _].
  destruct (dirty st) eqn:Ed.
  - exists (len content). split; [exact E |]. split; [| left; reflexivity].
    specialize (Hd eq_refl).
    rewrite replay_app, H1. cbn [mbind option_bind]. apply replay_data.
    rewrite slice_in_range by lia. f_equal. apply take_ge.
    rewrite length_drop. unfold len. lia.
  - exists (previousMatch st). split; [exact E |]. rewrite app_nil_r in *.
    split; [exact H1 |].
    destruct (H2 eq_refl) as [Heq | (Hpm & _ & Hl)]; [left; lia | right; auto].
Qed.

(** ** An empty hash list *)

Lemma reachable_no_hashes (content : list byte) (st : state) :
  reachable content ∅ st ->
  sent st = [] /\ previousMatch st = 0 /\ 0 <= offset st <= len content /\
  (dirty st = true <-> 0 < offset st).
Proof.
  induction 1 as [| st st' Hr (IH1 & IH2 & IH3 & IH4) Hlt Hit].
  - cbn. pose proof (len_nonneg content). repeat split; try lia; discriminate.
  - destruct (iteration_cases content ∅ st (reachable_inv _ _ _ Hr) Hlt)
      as (block & w & a & b & Hw & Hc).
    destruct Hc as [[E _] | (bh & flushed & Hs & _ & _)].
    + rewrite E in Hit. injection Hit as <-. cbn. repeat split; auto; lia.
    + rewrite lookup_total_empty in Hs. discriminate Hs.
Qed.

Lemma ApplyOps_single_data (content : gslice) (d : list byte) :
  ApplyOps content [op_data d] (len d) = Some d.
Proof.
  unfold ApplyOps, make. pose proof (len_nonneg d).
  rewrite decide_True by lia. cbn [mbind option_bind].
  change [op_data d] with (op_data <$> [d]).
  rewrite apply_data;
    [| lia | cbn [removelast concat]; change (len (@nil byte)) with 0;
             pose proof (len_nonneg (replicate (Z.to_nat (len d)) x00)); lia].
  cbn [concat]. rewrite app_nil_r, length_replicate. change (Z.to_nat 0) with 0%nat.
  rewrite take_0, drop_replicate. cbn [app].
  unfold len. rewrite Nat2Z.id, Nat.sub_diag. cbn [replicate].
  rewrite app_nil_r. f_equal. apply take_ge. lia.
Qed.

(** X9. Against an empty hash list, as an empty reference gives,
    [CalculateDifferences] sends the whole target as one [DATA] operation,
    and nothing for an empty target; [ApplyOps] rebuilds the target from
    that stream on any reference. *)
Theorem empty_hash_list_sends_all (original : gslice) (modified : list byte) :
  CalculateBlockHashes [] = Some [] /\
  CalculateDifferences modified []
    = Some (if decide (modified = []) then [] else [op_data modified]) /\
  ApplyOps original (if decide (modified = []) then [] else [op_data modified])
           (len modified) = Some modified.
Proof.
  split; [reflexivity |]. split.
  - destruct (CalculateDifferences_returns modified []) as (ops & E & _).
    rewrite E. f_equal.
    destruct (CalculateDifferences_exit _ _ _ E) as (st & Hr & Hend & ->).
    destruct (reachable_no_hashes _ _ Hr) as (-> & -> & Ho & Hd).
    cbn [app drop Z.to_nat]. case_decide as Hm.
    + subst modified. destruct (dirty st); [| reflexivity].
      pose proof (proj1 Hd eq_refl). change (len (@nil byte)) with 0 in Ho. lia.
    + destruct (dirty st); [reflexivity |].
      destruct modified as [| x m]; [congruence |].
      rewrite len_cons in Hend. pose proof (len_nonneg m).
      assert (false = true) as Hf by (apply Hd; lia). discriminate Hf.
  - case_decide as Hm.
    + subst modified. reflexivity.
    + apply ApplyOps_single_data.
Qed.

(** ** The reconstructor, continued *)

Lemma apply_skips_unknown (content : gslice) (ops : list RSyncOp.t) :
  forall result o,
    apply content ops result o = apply content (filter known_op ops) result o.
Proof.
  induction ops as [| op ops IH]; intros result o; [reflexivity |].
  rewrite filter_cons. destruct (decide (known_op op)) as [Hk | Hk].
  - cbn [apply]. repeat case_decide.
    + destruct (slice result o (o + BlockSize)); [| reflexivity].
      cbn [mbind option_bind]. destruct (reslice content _ _); [| reflexivity].
      cbn [mbind option_bind]. apply IH.
    + destruct (slice result o (len result)); [| reflexivity].
      cbn [mbind option_bind]. apply IH.
    + apply IH.
  - cbn [apply]. unfold known_op in Hk.
    rewrite !decide_False by tauto. apply IH.
Qed.

(** X11. [ApplyOps] skips every operation whose [opCode] is neither
    [BLOCK] nor [DATA]: such operations write nothing, move the cursor by
    nothing and cause no failure, so the outcome is that of the stream
    without them. *)
Theorem unknown_ops_are_skipped (content : gslice) (ops : list RSyncOp.t) (fileSize : Z) :
  ApplyOps content ops fileSize = ApplyOps content (filter known_op ops) fileSize.
Proof.
  unfold ApplyOps. destruct (make fileSize) as [result |]; [| reflexivity].
  cbn [mbind option_bind]. apply apply_skips_unknown.
Qed.

Lemma bytes_contributed_cons (op : RSyncOp.t) (ops : list RSyncOp.t) :
  bytes_contributed (op :: ops) = contributed op + bytes_contributed ops.
Proof. reflexivity. Qed.

Lemma reslice_is_Some (content : gslice) (i : Z) :
  is_Some (reslice content (wrap_int (i * BlockSize))
             (wrap_int (wrap_int (i * BlockSize) + BlockSize)))
  <-> source_in_capacity content i.
Proof.
  unfold reslice, source_in_capacity. cbv zeta. case_decide as H.
  - split; [intros _; exact H | eauto].
  - split; [intros [x Hx]; discriminate Hx | tauto].
Qed.

Lemma slice_is_Some {A} (s : list A) (lo hi : Z) :
  is_Some (slice s lo hi) <-> 0 <= lo /\ lo <= hi /\ hi <= len s.
Proof.
  unfold slice. case_decide as H.
  - split; [intros _; exact H | eauto].
  - split; [intros [x Hx]; discriminate Hx | tauto].
Qed.

(** When the loop of [ApplyOps] reaches its end: the cursor of an operation
    is [o] plus what the operations before it contribute. *)
Lemma apply_is_Some (content : gslice) (ops : list RSyncOp.t) :
  forall result o, 0 <= o ->
    is_Some (apply content ops result o) <->
    forall ops1 op ops2, ops = ops1 ++ op :: ops2 ->
      (RSyncOp.opCode op = BLOCK ->
         o + bytes_contributed ops1 + BlockSize <= len result /\
         source_in_capacity content (RSyncOp.blockIndex op)) /\
      (RSyncOp.opCode op = DATA -> o + bytes_contributed ops1 <= len result).
Proof.
  induction ops as [| op0 ops IH]; intros result o Ho.
  - split; [| intros _; cbn; eauto].
    intros _ ops1 op ops2 E. destruct ops1; discriminate E.
  - assert (Hshift : forall result' c,
      len result' = len result -> 0 <= c ->
      (is_Some (apply content ops result' (o + c)) <->
       forall ops1 op ops2, ops = ops1 ++ op :: ops2 ->
         (RSyncOp.opCode op = BLOCK ->
            o + (c + bytes_contributed ops1) + BlockSize <= len result /\
            source_in_capacity content (RSyncOp.blockIndex op)) /\
         (RSyncOp.opCode op = DATA -> o + (c + bytes_contributed ops1) <= len result))).
    { intros result' c Hl Hc. rewrite IH by lia. rewrite Hl.
      split; intros H ops1 op ops2 E; specialize (H ops1 op ops2 E);
        (split; [intros Hop; destruct (proj1 H Hop); split; [lia | assumption]
                | intros Hop; pose proof (proj2 H Hop); lia]). }
    assert (Hsplit : forall (P : list RSyncOp.t -> RSyncOp.t -> Prop),
      (forall ops1 op ops2, op0 :: ops = ops1 ++ op :: ops2 -> P ops1 op) <->
      P [] op0 /\ forall ops1 op ops2, ops = ops1 ++ op :: ops2 -> P (op0 :: ops1) op).
    { intros P. split.
      - intros H. split; [apply (H [] op0 ops); reflexivity |].
        intros ops1 op ops2 ->. apply (H (op0 :: ops1) op ops2). reflexivity.
      - intros [H0 H] ops1 op ops2 E. destruct ops1 as [| x ops1].
        + injection E as <- _. exact H0.
        + injection E as <- E. exact (H ops1 op ops2 E). }
    rewrite (Hsplit (λ ops1 op,
      (RSyncOp.opCode op = BLOCK ->
         o + bytes_contributed ops1 + BlockSize <= len result /\
         source_in_capacity content (RSyncOp.blockIndex op)) /\
      (RSyncOp.opCode op = DATA -> o + bytes_contributed ops1 <= len result))).
    change (bytes_contributed []) with 0. cbn [apply].
    destruct (decide (RSyncOp.opCode op0 = BLOCK)) as [Hb | Hb];
      [| destruct (decide (RSyncOp.opCode op0 = DATA)) as [Hd | Hd]].
    + assert (Hc : contributed op0 = BlockSize)
        by (unfold contributed; rewrite decide_True by exact Hb; reflexivity).
      destruct (slice result o (o + BlockSize)) as [dst |] eqn:Ed.
      2:{ split; [intros [x Hx]; discriminate Hx |].
          intros [[H _] _]. destruct (H Hb) as [H1 _].
          assert (is_Some (slice result o (o + BlockSize))) as [x Hx]
            by (apply slice_is_Some; unfold BlockSize in *; lia).
          congruence. }
      cbn [mbind option_bind].
      pose proof (slice_len _ _ _ _ Ed) as Hdl.
      apply slice_Some in Ed as (_ & _ & Hhi & _).
      destruct (reslice content _ _) as [src |] eqn:Es.
      2:{ split; [intros [x Hx]; discriminate Hx |].
          intros [[H _] _]. destruct (H Hb) as [_ H2].
          apply reslice_is_Some in H2 as [x Hx]. congruence. }
      cbn [mbind option_bind].
      assert (source_in_capacity content (RSyncOp.blockIndex op0)) as Hsic
        by (apply reslice_is_Some; eauto).
      rewrite (Hshift _ BlockSize);
        [| unfold len in *; rewrite copy_length; [reflexivity | lia]
         | unfold BlockSize; lia].
      split.
      * intros H. split;
          [split; [intros _; split; [lia | exact Hsic]
                  | intros Hd; rewrite Hb in Hd; discriminate Hd] |].
        intros ops1 op ops2 E. rewrite bytes_contributed_cons, Hc. exact (H ops1 op ops2 E).
      * intros [_ H] ops1 op ops2 E. specialize (H ops1 op ops2 E).
        rewrite bytes_contributed_cons, Hc in H. exact H.
    + assert (Hc : contributed op0 = len (RSyncOp.data op0)).
      { unfold contributed. rewrite decide_False by exact Hb.
        rewrite decide_True by exact Hd. reflexivity. }
      destruct (slice result o (len result)) as [dst |] eqn:Ed.
      2:{ split; [intros [x Hx]; discriminate Hx |].
          intros [[_ H] _]. specialize (H Hd).
          assert (is_Some (slice result o (len result))) as [x Hx]
            by (apply slice_is_Some; lia).
          congruence. }
      cbn [mbind option_bind].
      pose proof (slice_len _ _ _ _ Ed) as Hdl.
      apply slice_Some in Ed as (_ & Hlo & _ & _).
      rewrite (Hshift _ (len (RSyncOp.data op0)));
        [| unfold len in *; rewrite copy_length; [reflexivity | lia]
         | apply len_nonneg].
      split.
      * intros H. split; [split; [congruence | intros _; lia] |].
        intros ops1 op ops2 E. rewrite bytes_contributed_cons, Hc. exact (H ops1 op ops2 E).
      * intros [_ H] ops1 op ops2 E. specialize (H ops1 op ops2 E).
        rewrite bytes_contributed_cons, Hc in H. exact H.
    + assert (Hc : contributed op0 = 0)
        by (unfold contributed; rewrite !decide_False by assumption; reflexivity).
      replace o with (o + 0) at 1 by lia.
      rewrite (Hshift result 0) by (reflexivity || lia).
      split.
      * intros H. split; [split; intros; tauto |].
        intros ops1 op ops2 E. rewrite bytes_contributed_cons, Hc. exact (H ops1 op ops2 E).
      * intros [_ H] ops1 op ops2 E. specialize (H ops1 op ops2 E).
        rewrite bytes_contributed_cons, Hc in H. exact H.
Qed.

(** X10. [ApplyOps] returns a result exactly when the declared length is
    not negative, every [BLOCK] operation finds [BlockSize] bytes left in
    the output at its cursor and its source range inside the capacity of the
    reference, and every [DATA] operation has its cursor at or before the
    end of the output; the cursor of an operation is the sum of what the
    operations before it contribute, [BlockSize] for a [BLOCK] and the
    number of literal bytes for a [DATA]. In every other case it panics. *)
Theorem ApplyOps_returns_iff (content : gslice) (ops : list RSyncOp.t) (fileSize : Z) :
  is_Some (ApplyOps content ops fileSize) <->
  0 <= fileSize /\
  forall ops1 op ops2, ops = ops1 ++ op :: ops2 ->
    (RSyncOp.opCode op = BLOCK ->
       bytes_contributed ops1 + BlockSize <= fileSize /\
       source_in_capacity content (RSyncOp.blockIndex op)) /\
    (RSyncOp.opCode op = DATA -> bytes_contributed ops1 <= fileSize).
Proof.
  unfold ApplyOps, make. case_decide as Hn.
  - cbn [mbind option_bind]. rewrite apply_is_Some by lia.
    unfold len. rewrite length_replicate, Z2Nat.id by lia.
    split; [intros H; split; [exact Hn | exact H] | intros [_ H]; exact H].
  - cbn [mbind option_bind]. split; [intros [x Hx]; discriminate Hx | lia].
Qed.

(** ** What the reconstructor writes *)

Lemma wrap_int_range (z : Z) : - 2 ^ 63 <= wrap_int z < 2 ^ 63.
Proof.
  unfold wrap_int. pose proof (Z.mod_pos_bound (z + 2 ^ 63) (2 ^ 64) ltac:(lia)). lia.
Qed.

(** A source range that passes the bounds check is [BlockSize] bytes long. *)
Lemma source_range_width (content : gslice) (i : Z) :
  source_in_capacity content i ->
  wrap_int (wrap_int (i * BlockSize) + BlockSize) = wrap_int (i * BlockSize) + BlockSize.
Proof.
  unfold source_in_capacity. cbv zeta. intros (Hlo & Hle & _).
  pose proof (wrap_int_range (i * BlockSize)) as Hr.
  set (lo := wrap_int (i * BlockSize)) in *. unfold BlockSize in *.
  unfold wrap_int in Hle |- *.
  destruct (decide (lo + 2 < 2 ^ 63)) as [Hs | Hb].
  - rewrite Z.mod_small by lia. lia.
  - exfalso. replace (lo + 2 + 2 ^ 63) with (lo + 2 - 2 ^ 63 + 1 * 2 ^ 64) in Hle by lia.
    rewrite Z.mod_add in Hle by lia. rewrite Z.mod_small in Hle by lia. lia.
Qed.

Lemma expansion_block (content : gslice) (op : RSyncOp.t) :
  RSyncOp.opCode op = BLOCK ->
  source_in_capacity content (RSyncOp.blockIndex op) ->
  reslice content (wrap_int (RSyncOp.blockIndex op * BlockSize))
          (wrap_int (wrap_int (RSyncOp.blockIndex op * BlockSize) + BlockSize))
    = Some (expansion content op) /\
  length (expansion content op) = 2%nat.
Proof.
  intros Hop Hs. unfold expansion. rewrite decide_True by exact Hop. cbv zeta.
  pose proof (source_range_width _ _ Hs) as Hw.
  destruct (proj2 (reslice_is_Some content (RSyncOp.blockIndex op)) Hs) as [src E].
  rewrite E. change (default [] (Some src)) with src. split; [reflexivity |].
  unfold reslice in E. case_decide as Hd; [| discriminate E]. injection E as <-.
  rewrite Hw in *. destruct Hd as (Hlo & _ & Hcap).
  rewrite length_take, length_drop, length_app. unfold cap, len, BlockSize in *. lia.
Qed.

(** Writing [e] at [o] and then [x] right behind it is writing [e ++ x]
    at [o]. *)
Lemma splice_twice (result e x : list byte) (o k : nat) :
  (o + length e <= length result)%nat ->
  let result' := take o result ++ e ++ drop (o + length e) result in
  take (o + length e) result' ++ x ++ drop (o + length e + k) result'
  = take o result ++ (e ++ x) ++ drop (o + (length e + k)) result.
Proof.
  intros Hfit result'. unfold result'.
  replace (o + length e)%nat with (length (take o result ++ e)) at 1
    by (rewrite length_app, length_take; lia).
  rewrite (app_assoc _ e), take_app_length, <- !app_assoc. do 3 f_equal.
  rewrite (app_assoc _ e), drop_app_ge by (rewrite length_app, length_take; lia).
  rewrite drop_drop. f_equal. rewrite length_app, length_take. lia.
Qed.

Lemma splice_length (result e : list byte) (o : nat) :
  (o + length e <= length result)%nat ->
  length (take o result ++ e ++ drop (o + length e) result) = length result.
Proof. intros H. rewrite !length_app, length_take, length_drop. lia. Qed.

(** The loop of [ApplyOps] on a stream that passes every bounds check and
    fits the buffer: the bytes of the operations are laid out from the
    cursor on, in order, and the rest of the buffer is kept. *)
Lemma apply_expand (content : gslice) (ops : list RSyncOp.t) :
  (forall op, op ∈ ops -> RSyncOp.opCode op = BLOCK ->
     source_in_capacity content (RSyncOp.blockIndex op)) ->
  forall result o,
    0 <= o -> o + len (concat (expansion content <$> ops)) <= len result ->
    apply content ops result o
    = Some (take (Z.to_nat o) result ++ concat (expansion content <$> ops)
              ++ drop (Z.to_nat o + length (concat (expansion content <$> ops))) result).
Proof.
  induction ops as [| op ops IH]; intros Hcap result o Ho Hfit.
  - cbn [fmap list_fmap concat apply app length]. rewrite Nat.add_0_r, take_drop.
    reflexivity.
  - rewrite fmap_cons, concat_cons in *. rewrite len_app in Hfit.
    pose proof (len_nonneg (concat (expansion content <$> ops))) as Hrest.
    pose proof (len_nonneg (expansion content op)) as He.
    assert (Hcap' : forall op', op' ∈ ops -> RSyncOp.opCode op' = BLOCK ->
              source_in_capacity content (RSyncOp.blockIndex op'))
      by (intros op' Hin; apply Hcap; right; exact Hin).
    assert (Hnext : forall result',
      result' = take (Z.to_nat o) result ++ expansion content op
                  ++ drop (Z.to_nat o + length (expansion content op)) result ->
      apply content ops result' (o + len (expansion content op))
      = Some (take (Z.to_nat o) result
                ++ (expansion content op ++ concat (expansion content <$> ops))
                ++ drop (Z.to_nat o + length (expansion content op
                                               ++ concat (expansion content <$> ops)))
                        result)).
    { intros result' ->.
      assert (Hl : (Z.to_nat o + length (expansion content op) <= length result)%nat)
        by (unfold len in *; lia).
      rewrite IH; [| exact Hcap' | lia
                   | unfold len in *; rewrite splice_length by exact Hl; lia].
      f_equal.
      replace (Z.to_nat (o + len (expansion content op)))
        with (Z.to_nat o + length (expansion content op))%nat by (unfold len; lia).
      rewrite (splice_twice result _ _ _ _ Hl), length_app. reflexivity. }
    cbn [apply].
    destruct (decide (RSyncOp.opCode op = BLOCK)) as [Hb | Hb];
      [| destruct (decide (RSyncOp.opCode op = DATA)) as [Hd | Hd]].
    + destruct (expansion_block content op Hb (Hcap op (list_elem_of_here _ _) Hb))
        as [Esrc Hlen].
      rewrite Esrc. unfold len in Hfit. rewrite Hlen in Hfit.
      rewrite slice_in_range by (unfold BlockSize, len; lia).
      cbn [mbind option_bind].
      replace (o + BlockSize) with (o + len (expansion content op))
        by (unfold len, BlockSize; lia).
      apply Hnext. unfold copy.
      rewrite length_take, length_drop, Hlen.
      replace (Nat.min (Nat.min (Z.to_nat (o + len (expansion content op) - o))
                                (length result - Z.to_nat o)) 2) with 2%nat
        by (unfold len; lia).
      rewrite (take_ge (expansion content op)) by lia. reflexivity.
    + assert (Ee : expansion content op = RSyncOp.data op).
      { unfold expansion. rewrite decide_False by exact Hb.
        rewrite decide_True by exact Hd. reflexivity. }
      rewrite Ee in *.
      rewrite slice_in_range by lia. cbn [mbind option_bind].
      apply Hnext. rewrite length_take, length_drop.
      replace (Nat.min (Z.to_nat (len result - o)) (length result - Z.to_nat o))
        with (length result - Z.to_nat o)%nat by (unfold len; lia).
      rewrite copy_tail by (unfold len in *; lia).
      apply take_ge. rewrite splice_length; unfold len in *; lia.
    + assert (Ee : expansion content op = []).
      { unfold expansion. rewrite !decide_False by assumption. reflexivity. }
      rewrite Ee in *. change (len (@nil byte)) with 0 in *.
      replace o with (o + 0) at 1 by lia. apply Hnext.
      cbn [app length]. rewrite Nat.add_0_r, take_drop. reflexivity.
Qed.

Lemma ApplyOps_expand (content : gslice) (ops : list RSyncOp.t) (fileSize : Z) :
  (forall op, op ∈ ops -> RSyncOp.opCode op = BLOCK ->
     source_in_capacity content (RSyncOp.blockIndex op)) ->
  len (concat (expansion content <$> ops)) <= fileSize ->
  ApplyOps content ops fileSize
  = Some (concat (expansion content <$> ops)
            ++ replicate (Z.to_nat fileSize - length (concat (expansion content <$> ops)))
                 x00).
Proof.
  intros Hcap Hfit. pose proof (len_nonneg (concat (expansion content <$> ops))).
  unfold ApplyOps, make. rewrite decide_True by lia. cbn [mbind option_bind].
  rewrite apply_expand;
    [| exact Hcap | lia | unfold len in *; rewrite length_replicate; lia].
  change (Z.to_nat 0) with 0%nat. rewrite take_0, drop_replicate. reflexivity.
Qed.

(** X12. For a stream in which every [BLOCK] operation has its source
    range inside the capacity of the reference, and whose operations
    together write no more than the declared length, [ApplyOps] returns the
    bytes of the operations in stream order, [BlockSize] reference bytes
    from [blockIndex*BlockSize] for a [BLOCK] and the literal bytes for a
    [DATA], followed by zero bytes up to the declared length. *)
Theorem ApplyOps_lays_out_ops (content : gslice) (ops : list RSyncOp.t) (fileSize : Z) :
  (forall op, op ∈ ops -> RSyncOp.opCode op = BLOCK ->
     source_in_capacity content (RSyncOp.blockIndex op)) ->
  len (concat (expansion content <$> ops)) <= fileSize ->
  ApplyOps content ops fileSize
  = Some (concat (expansion content <$> ops)
            ++ replicate (Z.to_nat fileSize - length (concat (expansion content <$> ops)))
                 x00).
Proof. apply ApplyOps_expand. Qed.

Lemma ApplyOps_lays_out_ops_witness :
  (forall op, op ∈ text_ops -> RSyncOp.opCode op = BLOCK ->
     source_in_capacity (exact text_original) (RSyncOp.blockIndex op)) /\
  len (concat (expansion (exact text_original) <$> text_ops)) <= 17 /\
  ApplyOps (exact text_original) text_ops 17 = Some text_modified.
Proof.
  assert (H1 : forall op, op ∈ text_ops -> RSyncOp.opCode op = BLOCK ->
                 source_in_capacity (exact text_original) (RSyncOp.blockIndex op)).
  { intros op Hin Hop. unfold text_ops in Hin.
    repeat (apply elem_of_cons in Hin as [-> | Hin]);
      try discriminate Hop; try (inversion Hin; fail);
      unfold source_in_capacity; vm_compute; repeat split; discriminate. }
  assert (H2 : len (concat (expansion (exact text_original) <$> text_ops)) <= 17)
    by (vm_compute; discriminate).
  split; [exact H1 |]. split; [exact H2 |].
  exact (ApplyOps_lays_out_ops (exact text_original) text_ops 17 H1 H2).
Defined.

(** ** The round trip when every match is genuine *)

Lemma genuine_block (original : gslice) (modified : list byte)
    (hashes : list BlockHash.t) (h : BlockHash.t) (o : Z) (w : list byte) :
  genuine_matches original modified hashes ->
  h ∈ hashes -> window modified o = Some w ->
  BlockHash.strongHash h = strongHash w ->
  source_in_capacity original (BlockHash.index h) /\
  expansion original (op_block (BlockHash.index h)) = w /\
  len w = BlockSize.
Proof.
  intros Hg Hin Hw Hs. specialize (Hg h o w Hin Hw Hs). cbv zeta in Hg.
  assert (Hcap : source_in_capacity original (BlockHash.index h))
    by (apply reslice_is_Some; eauto).
  destruct (expansion_block original (op_block (BlockHash.index h)) eq_refl Hcap)
    as [E Hl].
  cbn [RSyncOp.blockIndex op_block] in E. rewrite Hg in E. injection E as E.
  split; [exact Hcap |]. split; [symmetry; exact E |].
  rewrite E. unfold len, BlockSize. lia.
Qed.

(** Under genuine matches the operations sent so far rebuild the target up
    to [previousMatch], and a clean state has [previousMatch] at [offset]. *)
Lemma reachable_rebuilds (original : gslice) (modified : list byte)
    (hashes : list BlockHash.t) (st : state) :
  genuine_matches original modified hashes ->
  reachable modified (foldl add_hash ∅ hashes) st ->
  concat (expansion original <$> sent st)
    = take (Z.to_nat (previousMatch st)) modified /\
  (forall op, op ∈ sent st -> RSyncOp.opCode op = BLOCK ->
     source_in_capacity original (RSyncOp.blockIndex op)) /\
  (dirty st = false -> previousMatch st = offset st).
Proof.
  intros Hg. induction 1 as [| st st' Hr (IH1 & IH2 & IH3) Hlt Hit].
  - split; [reflexivity |]. split; [| reflexivity].
    intros op Hin. inversion Hin.
  - pose proof (reachable_inv _ _ _ Hr) as [Hm Hml Hd _ _].
    destruct (iteration_cases modified (foldl add_hash ∅ hashes) st
                (reachable_inv _ _ _ Hr) Hlt)
      as (block & w & a & b & Hw & Hc).
    destruct Hc as [[E _] | (bh & flushed & Hs & Hf & E)];
      rewrite E in Hit; injection Hit as <-; cbn [sent previousMatch dirty offset].
    { split; [exact IH1 |]. split; [exact IH2 | discriminate]. }
    apply search_in_hashes in Hs as (Hin & _ & Hstrong).
    destruct (genuine_block _ _ _ _ _ _ Hg Hin Hw Hstrong) as (Hcap & Hexp & Hlen).
    pose proof (slice_len _ _ _ _ Hw) as Hwl. rewrite Hlen in Hwl.
    assert (He : endingByte modified (offset st) = offset st + BlockSize) by lia.
    assert (Hfl : concat (expansion original <$> flushed)
                  = take (Z.to_nat (offset st)) modified /\
                  (forall op, op ∈ flushed -> RSyncOp.opCode op = BLOCK ->
                     source_in_capacity original (RSyncOp.blockIndex op))).
    { destruct Hf as [[Ed ->] | (d & Ed & Hsl & ->)].
      - rewrite <- (IH3 Ed). auto.
      - split.
        + rewrite fmap_app, concat_app, IH1. cbn [fmap list_fmap concat].
          rewrite app_nil_r.
          change (expansion original (op_data d)) with d.
          apply slice_Some in Hsl as (? & ? & ? & ->).
          rewrite take_take_drop. f_equal. lia.
        + intros op Hop. apply elem_of_app in Hop as [Hop | Hop]; [auto |].
          apply list_elem_of_singleton in Hop. subst op. discriminate. }
    destruct Hfl as [Hfl1 Hfl2].
    split; [| split; [| intros _; exact He]].
    + rewrite fmap_app, concat_app, Hfl1. cbn [fmap list_fmap concat].
      rewrite app_nil_r, Hexp.
      unfold window in Hw. apply slice_Some in Hw as (? & ? & ? & ->).
      rewrite take_take_drop. f_equal. lia.
    + intros op Hop. apply elem_of_app in Hop as [Hop | Hop]; [auto |].
      apply list_elem_of_singleton in Hop. subst op. intros _. exact Hcap.
Qed.

(** X13. Whenever every strong-hash match between a window of the target
    and an entry of the hash list is genuine, the bytes [ApplyOps] reads in
    the reference for that entry being the bytes of the window,
    [ApplyOps] rebuilds the target from the stream of
    [CalculateDifferences], byte for byte. *)
Theorem round_trip_on_genuine_matches (original : gslice) (modified : list byte)
    (hashes : list BlockHash.t) :
  genuine_matches original modified hashes ->
  exists ops, CalculateDifferences modified hashes = Some ops /\
    ApplyOps original ops (len modified) = Some modified.
Proof.
  intros Hg.
  destruct (CalculateDifferences_returns modified hashes) as (ops & E & _).
  exists ops. split; [exact E |].
  destruct (CalculateDifferences_exit _ _ _ E) as (st & Hr & Hend & ->).
  destruct (reachable_rebuilds _ _ _ _ Hg Hr) as (H1 & H2 & H3).
  pose proof (reachable_inv _ _ _ Hr) as [Hm Hml Hd _ _].
  assert (Hall : concat (expansion original <$>
                    sent st ++ (if dirty st
                                then [op_data (drop (Z.to_nat (previousMatch st)) modified)]
                                else [])) = modified).
  { rewrite fmap_app, concat_app, H1. destruct (dirty st).
    - cbn [fmap list_fmap concat]. rewrite app_nil_r.
      change (expansion original (op_data ?d)) with d. apply take_drop.
    - cbn [fmap list_fmap concat]. rewrite app_nil_r. apply take_ge.
      rewrite (H3 eq_refl). unfold len in *. lia. }
  rewrite ApplyOps_expand.
  - rewrite Hall. unfold len. rewrite Nat2Z.id, Nat.sub_diag. cbn [replicate].
    rewrite app_nil_r. reflexivity.
  - intros op Hop. apply elem_of_app in Hop as [Hop | Hop]; [auto |].
    destruct (dirty st); [| inversion Hop].
    apply list_elem_of_singleton in Hop. subst op. discriminate.
  - rewrite Hall. lia.
Qed.

(** The texts of [Test_Result]: every window of the second text whose
    strong hash is that of a block of the first is that block. *)
Lemma text_matches_genuine :
  genuine_matches (exact text_original) text_modified text_hashes.
Proof.
  intros h o w Hin Hw Hs.
  assert (Ho : 0 <= o <= 16).
  { unfold window in Hw. apply slice_Some in Hw as (H1 & H2 & _ & _).
    pose proof (min_le_r (o + BlockSize) (len text_modified - 1)) as Hr.
    unfold endingByte in H2. change (len text_modified - 1) with 16 in *. lia. }
  apply list_elem_of_lookup in Hin as [i Hi].
  assert (Hcases : o = 0 \/ o = 1 \/ o = 2 \/ o = 3 \/ o = 4 \/ o = 5 \/ o = 6 \/ o = 7
                   \/ o = 8 \/ o = 9 \/ o = 10 \/ o = 11 \/ o = 12 \/ o = 13 \/ o = 14
                   \/ o = 15 \/ o = 16) by lia.
  clear Ho.
  destruct i as [| [| [| [| [| [| i]]]]]];
    vm_compute in Hi; try discriminate Hi; injection Hi as <-;
    repeat (destruct Hcases as [-> | Hcases]); try subst o;
    vm_compute in Hw; injection Hw as <-;
    vm_compute in Hs; try discriminate Hs;
    vm_compute; reflexivity.
Qed.

Lemma round_trip_on_genuine_matches_witness :
  CalculateBlockHashes text_original = Some text_hashes /\
  genuine_matches (exact text_original) text_modified text_hashes /\
  CalculateDifferences text_modified text_hashes = Some text_ops /\
  exists ops, CalculateDifferences text_modified text_hashes = Some ops /\
    ApplyOps (exact text_original) ops (len text_modified) = Some text_modified.
Proof.
  split; [vm_compute; reflexivity |]. split; [exact text_matches_genuine |].
  split; [vm_compute; reflexivity |].
  exact (round_trip_on_genuine_matches (exact text_original) text_modified text_hashes
           text_matches_genuine).
Defined.

(** ** Size of the stream and range of the kept hash *)

Lemma reachable_sent_length (content : list byte) (hashesMap : gmap Z (list BlockHash.t))
    (st : state) :
  reachable content hashesMap st ->
  len (sent st) + (if dirty st then 1 else 0) <= offset st /\
  len (sent st) + (if dirty st then 1 else 0) <= len content.
Proof.
  induction 1 as [| st st' Hr [IH1 IH2] Hlt Hit].
  - cbn. pose proof (len_nonneg content). change (len (@nil RSyncOp.t)) with 0. lia.
  - destruct (iteration_cases content hashesMap st (reachable_inv _ _ _ Hr) Hlt)
      as (block & w & a & b & Hw & Hc).
    destruct Hc as [[E _] | (bh & flushed & _ & Hf & E)];
      rewrite E in Hit; injection Hit as <-; cbn [sent dirty offset].
    + destruct (dirty st); lia.
    + rewrite len_app. change (len [op_block (BlockHash.index bh)]) with 1.
      unfold BlockSize.
      destruct Hf as [[Ed ->] | (d & Ed & _ & ->)]; rewrite Ed in *.
      * lia.
      * rewrite len_app. change (len [op_data d]) with 1. lia.
Qed.

(** X14. The stream of [CalculateDifferences] never holds more operations
    than the target has bytes. *)
Theorem stream_no_longer_than_target (content : list byte) (hashes : list BlockHash.t) :
  exists ops, CalculateDifferences content hashes = Some ops /\
    len ops <= len content.
Proof.
  destruct (CalculateDifferences_returns content hashes) as (ops & E & _).
  exists ops. split; [exact E |].
  destruct (CalculateDifferences_exit _ _ _ E) as (st & Hr & _ & ->).
  destruct (reachable_sent_length _ _ _ Hr) as [_ H].
  rewrite len_app. destruct (dirty st).
  - change (len [op_data _]) with 1. exact H.
  - change (len (@nil RSyncOp.t)) with 0. lia.
Qed.

Lemma roll_range (a b : Z) (removed added : byte) (wlen : Z) :
  let '(w', a', b') := roll a b removed added wlen in
  0 <= a' < 65536 /\ 0 <= b' < 65536 /\ w' = a' + 65536 * b'.
Proof.
  rewrite roll_formula. cbv zeta.
  split; [apply mod_M_range | split; [apply mod_M_range | reflexivity]].
Qed.

Lemma weakHash_range (v : list byte) :
  let '(w', a', b') := weakHash v in
  0 <= a' < 65536 /\ 0 <= b' < 65536 /\ w' = a' + 65536 * b'.
Proof.
  rewrite weakHash_sums.
  split; [apply mod_M_range | split; [apply mod_M_range | reflexivity]].
Qed.

(** X15. At the head of every turn of the scan loop the two halves kept
    in the state are reduced modulo 65536 and the weak hash is
    [aweak + 65536 * bweak], whether they were last recomputed or rolled,
    the [uint32] subtractions of the rolling update included. *)
Theorem kept_hash_is_composite (content : list byte) (hashes : list BlockHash.t)
    (st : state) :
  reachable content (foldl add_hash ∅ hashes) st ->
  0 <= aweak st < 65536 /\ 0 <= bweak st < 65536 /\
  weak st = aweak st + 65536 * bweak st.
Proof.
  induction 1 as [| st st' Hr IH Hlt Hit].
  - cbn. lia.
  - pose proof (reachable_inv _ _ _ Hr) as HI.
    destruct (window_in_loop content (offset st)) as (block & Hw & _);
      [destruct HI; lia |].
    destruct (iteration_hashed _ _ _ _ _ Hit Hw)
      as [[_ E] | (_ & removed & added & _ & _ & E)].
    + pose proof (weakHash_range block) as Hr'. rewrite <- E in Hr'. exact Hr'.
    + pose proof (roll_range (aweak st) (bweak st) removed added
                    (endingByte content (offset st) - offset st)) as Hr'.
      rewrite <- E in Hr'. exact Hr'.
Qed.

Lemma kept_hash_is_composite_witness :
  reachable [x0a; x14; x1e; x28] (foldl add_hash ∅ [])
            (State 1 0 30 40 (30 + 65536 * 40) true true []) /\
  0 <= 30 < 65536 /\ 0 <= 40 < 65536 /\ 30 + 65536 * 40 = 30 + 65536 * 40.
Proof.
  assert (H1 : reachable [x0a; x14; x1e; x28] (foldl add_hash ∅ [])
                 (State 1 0 30 40 (30 + 65536 * 40) true true [])).
  { apply (reach_turn _ _ start); [apply reach_start | reflexivity |].
    vm_compute. reflexivity. }
  split; [exact H1 |].
  exact (kept_hash_is_composite [x0a; x14; x1e; x28] []
           (State 1 0 30 40 (30 + 65536 * 40) true true []) H1).
Defined.

(** ** Rolling into the last window *)

Lemma byteZ_zero (b : byte) : byteZ b = 0 -> b = x00.
Proof.
  unfold byteZ. intros H. assert (E : Byte.to_N b = 0%N) by lia.
  pose proof (Byte.of_to_N b) as Hb. rewrite E in Hb. cbn in Hb. congruence.
Qed.

(** Rolled from the window [[x, y]] with [x] leaving and, as at the tail,
    [y] counted a second time, the hash is that of [[y]] only for two zero
    bytes. *)
Lemma roll_shrinking (x y : byte) :
  let '(_, a, b) := weakHash [x; y] in
  roll a b x y 1 = weakHash [y] <-> x = x00 /\ y = x00.
Proof.
  rewrite !weakHash_sums, roll_formula. cbn [sum_a sum_b]. cbv zeta.
  change (len [x; y]) with 2. change (len [y]) with 1. change M with 65536.
  pose proof (byteZ_range x). pose proof (byteZ_range y).
  repeat match goal with
         | |- context [?z mod 65536] => rewrite (Z.mod_small z 65536) by lia
         end.
  split.
  - intros E. injection E as _ Ea Eb.
    split; apply byteZ_zero; lia.
  - intros [-> ->]. reflexivity.
Qed.

(** X16. When the scan loop rolls into the last window of the target, the
    one byte before the final byte, it rolls with the window length 1 and
    counts the byte of the window as the byte that enters: the weak hash it
    then looks up is the weak hash of the window only if that byte and the
    byte before it are both zero. *)
Theorem rolled_hash_at_tail (content : list byte) (hashes : list BlockHash.t)
    (st st' : state) (x y : byte) :
  reachable content (foldl add_hash ∅ hashes) st ->
  isRolling st = true -> offset st = len content - 2 ->
  idx content (offset st - 1) = Some x -> idx content (offset st) = Some y ->
  iteration content (foldl add_hash ∅ hashes) st = Some st' ->
  window content (offset st) = Some [y] /\
  ((weak st', aweak st', bweak st') = weakHash [y] <-> x = x00 /\ y = x00).
Proof.
  intros Hr Er Ho Hx Hy Hit.
  pose proof (reachable_inv _ _ _ Hr) as HI.
  pose proof (inv_rolling _ _ HI Er) as H1.
  apply idx_Some in Hx as [Hxr Hx]. apply idx_Some in Hy as [Hyr Hy].
  assert (He : endingByte content (offset st) = offset st + 1).
  { unfold endingByte, rsync.min, BlockSize. case_decide; lia. }
  assert (Hw : window content (offset st) = Some [y]).
  { unfold window. rewrite He, slice_in_range by lia. f_equal.
    replace (Z.to_nat (offset st + 1 - offset st)) with 1%nat by lia.
    rewrite (drop_S _ _ _ Hy). reflexivity. }
  split; [exact Hw |].
  assert (Hw0 : slice content (offset st - 1) (offset st + 1) = Some [x; y]).
  { rewrite slice_in_range by lia. f_equal.
    replace (Z.to_nat (offset st + 1 - (offset st - 1))) with 2%nat by lia.
    rewrite (drop_S _ _ _ Hx).
    replace (S (Z.to_nat (offset st - 1))) with (Z.to_nat (offset st)) by lia.
    rewrite (drop_S _ _ _ Hy). reflexivity. }
  pose proof (reachable_carries _ _ _ Hr Er ltac:(lia) _ Hw0) as Hprev.
  destruct (iteration_hashed _ _ _ _ _ Hit Hw)
    as [[Ef _] | (_ & removed & added & Hrem & Hadd & E)]; [congruence |].
  apply idx_Some in Hrem as [_ Hrem]. apply idx_Some in Hadd as [_ Hadd].
  rewrite He in Hadd, E.
  replace (offset st + 1 - 1) with (offset st) in Hadd by lia.
  replace (offset st + 1 - offset st) with 1 in E by lia.
  assert (removed = x) as -> by congruence. assert (added = y) as -> by congruence.
  rewrite E. pose proof (roll_shrinking x y) as Hsh. rewrite <- Hprev in Hsh. exact Hsh.
Qed.

Lemma rolled_hash_at_tail_witness :
  let st1 := State 1 0 14 23 (14 + 65536 * 23) true true [] in
  let st2 := State 2 0 10 24 (10 + 65536 * 24) true true [] in
  reachable [x09; x05; x08] (foldl add_hash ∅ []) st1 /\
  isRolling st1 = true /\ offset st1 = len [x09; x05; x08] - 2 /\
  idx [x09; x05; x08] (offset st1 - 1) = Some x09 /\
  idx [x09; x05; x08] (offset st1) = Some x05 /\
  iteration [x09; x05; x08] (foldl add_hash ∅ []) st1 = Some st2 /\
  window [x09; x05; x08] (offset st1) = Some [x05] /\
  ((weak st2, aweak st2, bweak st2) = weakHash [x05] <-> x09 = x00 /\ x05 = x00).
Proof.
  cbv zeta.
  assert (H1 : reachable [x09; x05; x08] (foldl add_hash ∅ [])
                 (State 1 0 14 23 (14 + 65536 * 23) true true [])).
  { apply (reach_turn _ _ start); [apply reach_start | reflexivity |].
    vm_compute. reflexivity. }
  assert (H2 : iteration [x09; x05; x08] (foldl add_hash ∅ [])
                 (State 1 0 14 23 (14 + 65536 * 23) true true [])
               = Some (State 2 0 10 24 (10 + 65536 * 24) true true []))
    by (vm_compute; reflexivity).
  split; [exact H1 |]. do 4 (split; [reflexivity |]). split; [exact H2 |].
  exact (rolled_hash_at_tail [x09; x05; x08] []
           (State 1 0 14 23 (14 + 65536 * 23) true true [])
           (State 2 0 10 24 (10 + 65536 * 24) true true [])
           x09 x05 H1 eq_refl eq_refl eq_refl eq_refl H2).
Defined.
